(** * citrine.storage.group: a sharded map over capacity-bounded collections

    A shallow embedding of [src/citrine/storage/group.py]: the routing
    decorator [groupfn], the derived statistics of [GroupMeta], the
    constructor [Group.__init__], the factory [Group.new] and the keyed
    operations of [Group].

    Python objects that are mutated and shared (the [Collection] instances
    referenced both by a group and by its metadata, the caller's [custom]
    dictionary) live in explicit state: a heap of collections addressed by
    references, and the dictionary returned next to the result. *)

From Stdlib Require Import ZArith Lia List Permutation.
From stdpp Require Import base option list gmap strings.

Local Open Scope Z_scope.

(** ** Python values, exceptions and results *)

(** The unbound methods of [Collection] that the methods of [Group] return. *)
Inductive CollectionMethod : Type :=
  | Cget | Cinsert | Cpopitem | Cclear.

(** The fragment of Python values that flows through the group: [None],
    integers, strings (sequences of code points), pairs and function
    objects. *)
Inductive PyVal : Type :=
  | PyNone
  | PyInt (z : Z)
  | PyStr (s : list Z)
  | PyPair (a b : PyVal)
  | PyFunc (m : CollectionMethod).

Global Instance CollectionMethod_eq_dec : EqDecision CollectionMethod.
Proof. solve_decision. Defined.

Global Instance PyVal_eq_dec : EqDecision PyVal.
Proof. solve_decision. Defined.

(** Exceptions.  Those raised by a [raise] statement of the source carry the
    message written there; the others are raised by the interpreter.
    [DanglingReference] is not a Python exception: it is what the model
    answers for a reference outside the heap, which no Python program can
    build. *)
Inductive exn : Type :=
  | ValueError (msg : string)
  | KeyError (msg : string)
  | AttributeError
  | TypeError
  | ZeroDivisionError
  | UnicodeEncodeError
  | IndexError
  | CollectionCapacityError
  | DanglingReference.

Inductive result (A : Type) : Type :=
  | Ok (a : A)
  | Raise (e : exn).
Arguments Ok {A} a.
Arguments Raise {A} e.

Global Instance result_ret : MRet result := @Ok.
Global Instance result_bind : MBind result := λ A B f m,
  match m with Ok a => f a | Raise e => Raise e end.
Global Instance result_fmap : FMap result := λ A B f m,
  match m with Ok a => Ok (f a) | Raise e => Raise e end.

Definition is_Ok {A} (r : result A) : bool :=
  match r with Ok _ => true | Raise _ => false end.

(** ** Strings and their integer encoding *)

(** [str.encode()]: UTF-8.  Surrogate code points cannot be encoded. *)
Definition utf8_char (c : Z) : result (list Z) :=
  if c <? 0x80 then Ok [c]
  else if c <? 0x800 then
    Ok [Z.lor 0xC0 (Z.shiftr c 6); Z.lor 0x80 (Z.land c 0x3F)]
  else if c <? 0x10000 then
    if (0xD800 <=? c) && (c <=? 0xDFFF) then Raise UnicodeEncodeError
    else Ok [Z.lor 0xE0 (Z.shiftr c 12);
             Z.lor 0x80 (Z.land (Z.shiftr c 6) 0x3F);
             Z.lor 0x80 (Z.land c 0x3F)]
  else
    Ok [Z.lor 0xF0 (Z.shiftr c 18);
        Z.lor 0x80 (Z.land (Z.shiftr c 12) 0x3F);
        Z.lor 0x80 (Z.land (Z.shiftr c 6) 0x3F);
        Z.lor 0x80 (Z.land c 0x3F)].

Fixpoint str_encode (s : list Z) : result (list Z) :=
  match s with
  | [] => Ok []
  | c :: s' => b ← utf8_char c; bs ← str_encode s'; Ok (b ++ bs)
  end.

(** [key.encode()] on an arbitrary value: only [str] has the attribute. *)
Definition py_encode (key : PyVal) : result (list Z) :=
  match key with
  | PyStr s => str_encode s
  | _ => Raise AttributeError
  end.

(** [int.from_bytes(b)], byte order big (the default). *)
Definition int_from_bytes (b : list Z) : Z :=
  fold_left (λ acc byte, acc * 256 + byte) b 0.

(** [a % n] on integers. *)
Definition py_mod (a n : Z) : result Z :=
  if n =? 0 then Raise ZeroDivisionError else Ok (a mod n).

(** [max(xs)] on integers. *)
Definition py_max (xs : list Z) : result Z :=
  match xs with
  | [] => Raise (ValueError "max() arg is an empty sequence")
  | x :: xs' => Ok (fold_left Z.max xs' x)
  end.

(** A string literal as a Python [str]. *)
Definition str (s : string) : list Z :=
  map (λ a, Z.of_N (Ascii.N_of_ascii a)) (String.list_ascii_of_string s).

(** ** Dictionaries in insertion order *)

Section assoc.
Context {V : Type}.

Fixpoint assoc_get (d : list (PyVal * V)) (k : PyVal) : option V :=
  match d with
  | [] => None
  | (k', v) :: d' => if decide (k' = k) then Some v else assoc_get d' k
  end.

(** [d[k] = v]: an existing key keeps its place, a new one goes last. *)
Fixpoint assoc_set (d : list (PyVal * V)) (k : PyVal) (v : V)
  : list (PyVal * V) :=
  match d with
  | [] => [(k, v)]
  | (k', v') :: d' =>
      if decide (k' = k) then (k', v) :: d' else (k', v') :: assoc_set d' k v
  end.
End assoc.

Definition Dict : Type := list (PyVal * Z).

(** Keyword arguments of a call. *)
Definition Kwargs : Type := list (string * PyVal).

Fixpoint kw_get (kw : Kwargs) (name : string) : option PyVal :=
  match kw with
  | [] => None
  | (n, v) :: kw' => if decide (n = name) then Some v else kw_get kw' name
  end.

Definition kw_remove (kw : Kwargs) (name : string) : Kwargs :=
  filter (λ p, p.1 ≠ name) kw.

(** Parameters of a method after [self]: a name and, when the parameter is
    optional, its default. *)
Definition Params : Type := list (string * option PyVal).

(** Binding of the arguments of a call to the parameters of a function
    without [*args] or [**kwargs]; every mismatch is a [TypeError]. *)
Fixpoint bind_params (ps : Params) (args : list PyVal) (kw : Kwargs)
  : result (list PyVal) :=
  match ps, args with
  | [], [] => match kw with [] => Ok [] | _ :: _ => Raise TypeError end
  | [], _ :: _ => Raise TypeError
  | (n, _) :: ps', a :: args' =>
      match kw_get kw n with
      | Some _ => Raise TypeError
      | None => vs ← bind_params ps' args' kw; Ok (a :: vs)
      end
  | (n, dflt) :: ps', [] =>
      match kw_get kw n, dflt with
      | Some v, _ => vs ← bind_params ps' [] (kw_remove kw n); Ok (v :: vs)
      | None, Some v => vs ← bind_params ps' [] kw; Ok (v :: vs)
      | None, None => Raise TypeError
      end
  end.

(** ** Collections and the heap *)

(** Modelled from the spec: the class [Collection] of
    [citrine.storage.collection], which [group.py] imports and whose source
    is not part of the repository excerpt.  A collection has a unique
    identifier, a maximum capacity, a strictness policy fixed when it is
    built, and its entries; its size is the number of entries. *)
Record Collection : Type := mkCollection {
  uuid : N;
  max_size : Z;
  strict : bool;
  data : list (PyVal * PyVal)
}.

Definition Collection_size (c : Collection) : Z := Z.of_nat (length (data c)).

(** Collections are shared objects: a group and its metadata refer to the
    same instances.  The heap holds them; a reference is an address. *)
Abbreviation Ref := nat (only parsing).
Abbreviation Heap := (list Collection) (only parsing).

(** Computations that read and write the heap and may raise. *)
Definition M (A : Type) : Type := Heap → result A * Heap.

Definition ret {A} (a : A) : M A := λ h, (Ok a, h).
Definition lift {A} (r : result A) : M A := λ h, (r, h).
Definition bind {A B} (m : M A) (k : A → M B) : M B := λ h,
  match m h with
  | (Ok a, h') => k a h'
  | (Raise e, h') => (Raise e, h')
  end.

Notation "x <~ m ;; k" := (bind m (λ x, k))
  (at level 100, m at next level, right associativity).

Definition deref (r : Ref) : M Collection := λ h,
  match h !! r with
  | Some c => (Ok c, h)
  | None => (Raise DanglingReference, h)
  end.

Definition derefs (rs : list Ref) (h : Heap) : result (list Collection) :=
  mapM (λ r, match h !! r with
             | Some c => Ok c
             | None => Raise DanglingReference
             end) rs.

(** Modelled from the spec: the methods of [Collection] that the group
    delegates to, as section 6 of the specification gives them.
    [get(key, default)] answers the stored value or the default;
    [insert(key, value)] fails with the capacity error when the collection
    is strict and the write would take it over its capacity; [popitem()]
    removes and answers an entry, or fails on an empty collection;
    [clear()] removes every entry. *)
Definition Collection_get (c : Collection) (key dflt : PyVal) : PyVal :=
  default dflt (assoc_get (data c) key).

Definition Collection_insert (c : Collection) (key value : PyVal)
  : result Collection :=
  let grows := match assoc_get (data c) key with Some _ => 0 | None => 1 end in
  if strict c && (max_size c <? Collection_size c + grows)
  then Raise CollectionCapacityError
  else Ok (mkCollection (uuid c) (max_size c) (strict c)
             (assoc_set (data c) key value)).

Definition Collection_popitem (c : Collection) : result (PyVal * Collection) :=
  match data c with
  | [] => Raise (KeyError "popitem(): collection is empty")
  | (k, v) :: rest =>
      Ok (PyPair k v, mkCollection (uuid c) (max_size c) (strict c) rest)
  end.

Definition Collection_clear (c : Collection) : Collection :=
  mkCollection (uuid c) (max_size c) (strict c) [].

(** Modelled from the spec: the parameters of those methods after [self]. *)
Definition Collection_params (m : CollectionMethod) : Params :=
  match m with
  | Cget => [("key"%string, None); ("default"%string, Some PyNone)]
  | Cinsert => [("key"%string, None); ("value"%string, None)]
  | Cpopitem => []
  | Cclear => []
  end.

(** The call [m(collection, *args, **kwargs)] of an unbound method. *)
Definition Collection_call (m : CollectionMethod) (collection : Ref)
    (args : list PyVal) (kwargs : Kwargs) : M PyVal :=
  c <~ deref collection ;;
  vs <~ lift (bind_params (Collection_params m) args kwargs) ;;
  λ h,
    match m, vs with
    | Cget, [key; dflt] => (Ok (Collection_get c key dflt), h)
    | Cinsert, [key; value] =>
        match Collection_insert c key value with
        | Ok c' => (Ok PyNone, <[collection := c']> h)
        | Raise e => (Raise e, h)
        end
    | Cpopitem, [] =>
        match Collection_popitem c with
        | Ok (kv, c') => (Ok kv, <[collection := c']> h)
        | Raise e => (Raise e, h)
        end
    | Cclear, [] => (Ok PyNone, <[collection := Collection_clear c]> h)
    | _, _ => (Raise TypeError, h)
    end.

(** ** GroupMeta and Group *)

Record GroupMeta : Type := mkGroupMeta {
  meta_collections : list Ref
}.

Record Group : Type := mkGroup {
  collections : list Ref;
  meta : GroupMeta
}.

(** [GroupMeta.__init__]: [self.collections = tuple(self.obj.collections)],
    a new tuple of the same references. *)
Definition GroupMeta_init (obj_collections : list Ref) : GroupMeta :=
  mkGroupMeta obj_collections.

Definition sum_Z (xs : list Z) : Z := fold_left Z.add xs 0.

Section group.
(** What the sources leave to [citrine.storage.collection] and to the
    environment: the default capacity, the strictness a collection gets
    when its constructor is not told one, the identifier that the n-th
    collection built receives, and the status a collection derives from
    its own state. *)
Variable DEFAULT_MAX : Z.
Variable DEFAULT_STRICT : bool.
Variable uuid4 : nat → N.
Variable Collection_status : Collection → Z.

(** [Collection(max_size=n)]: a new, empty collection on the heap. *)
Definition Collection_new (n : Z) : M Ref := λ h,
  (Ok (length h),
   h ++ [mkCollection (uuid4 (length h)) n DEFAULT_STRICT []]).

(** [tuple(Collection(max_size=n) for n in sizes)]. *)
Fixpoint Collection_new_each (sizes : list Z) : M (list Ref) :=
  match sizes with
  | [] => ret []
  | n :: sizes' =>
      r <~ Collection_new n ;;
      rs <~ Collection_new_each sizes' ;;
      ret (r :: rs)
  end.

(** *** GroupMeta properties *)

Definition GroupMeta_size (m : GroupMeta) (h : Heap) : result Z :=
  cs ← derefs (meta_collections m) h; Ok (sum_Z (map Collection_size cs)).

Definition GroupMeta_max_size (m : GroupMeta) (h : Heap) : result Z :=
  cs ← derefs (meta_collections m) h; Ok (sum_Z (map max_size cs)).

Definition GroupMeta_max_collection_size (m : GroupMeta) (h : Heap)
  : result Z :=
  cs ← derefs (meta_collections m) h; py_max (map max_size cs).

Definition GroupMeta_status (m : GroupMeta) (h : Heap) : result Z :=
  cs ← derefs (meta_collections m) h; py_max (map Collection_status cs).

(** *** Group properties *)

Definition Group_size (g : Group) : Heap → result Z :=
  GroupMeta_size (meta g).
Definition Group_max_size (g : Group) : Heap → result Z :=
  GroupMeta_max_size (meta g).
Definition Group_max_collection_size (g : Group) : Heap → result Z :=
  GroupMeta_max_collection_size (meta g).
Definition Group_status (g : Group) : Heap → result Z :=
  GroupMeta_status (meta g).

(** *** Group.__init__ *)

Definition Group_init (cols : list Ref) : M Group :=
  cs <~ (λ h, (derefs cols h, h)) ;;
  if decide (size (list_to_set (map uuid cs) : gset N) ≠ length cols)
  then lift (Raise (KeyError
               "Collections must not have conflicting UUID values"))
  else ret (mkGroup cols (GroupMeta_init cols)).

(** *** Group.new *)

(** [not size], for [size] an integer or [None]. *)
Definition not_size (size : option Z) : bool :=
  match size with None => true | Some n => n =? 0 end.

(** [isinstance(key, int)]. *)
Definition is_int (key : PyVal) : bool :=
  match key with PyInt _ => true | _ => false end.

(** [max(custom.keys())]: the order is that of the integers; other keys
    do not compare with them. *)
Definition max_key (keys : list PyVal) : result Z :=
  ints ← mapM (λ k, match k with PyInt z => Ok z | _ => Raise TypeError end)
            keys;
  py_max ints.

(** The loop [for key in range(size): if key not in keys: custom[key] =
    max_collection_size], on the caller's dictionary. *)
Definition fill_gaps (keys : list PyVal) (max_collection_size size : Z)
    (custom : Dict) : Dict :=
  fold_left
    (λ d key, if decide (PyInt key ∈ keys) then d
              else assoc_set d (PyInt key) max_collection_size)
    (seqZ 0 size) custom.

(** [Group.new(size, max_collection_size, strict, custom)].  Next to the
    result and the heap it answers the caller's [custom] dictionary as the
    call leaves it. *)
Definition Group_new (size : option Z) (max_collection_size : Z)
    (strict : bool) (custom : option Dict)
  : Heap → result Group * Heap * option Dict := λ h,
  match custom with
  | None | Some [] =>
      if not_size size
      then (Raise (ValueError
              "Size must be provided if no custom definition is"),
            h, custom)
      else
        let '(r, h') :=
          (cols <~ Collection_new_each
                     (map (λ _, max_collection_size)
                          (seqZ 0 (default 0 size))) ;;
           Group_init cols) h in
        (r, h', custom)
  | Some d =>
      let keys := map fst d in
      if existsb (λ key, negb (is_int key)) keys
      then (Raise (KeyError "Custom collection keys must be integers"),
            h, custom)
      else
        match max_key keys with
        | Raise e => (Raise e, h, custom)
        | Ok highest =>
            let size := if not_size size then highest else default 0 size in
            if negb (size =? 0) && (size <? highest)
            then (Raise (KeyError "Size must be greater than highest key"),
                  h, custom)
            else
              let d' := fill_gaps keys max_collection_size size d in
              let '(r, h') :=
                (cols <~ Collection_new_each (map snd d') ;;
                 Group_init cols) h in
              (r, h', Some d')
        end
  end.
End group.

(** ** Routing and the keyed operations *)

(** [int.from_bytes(key.encode()) % len(obj.collections)]. *)
Definition shard_index (obj : Group) (key : PyVal) : result Z :=
  b ← py_encode key;
  py_mod (int_from_bytes b) (Z.of_nat (length (collections obj))).

(** The decorator [groupfn]: the key is the keyword argument [key] or else
    the first positional argument or else [None]; the collection at the
    key's index is chosen; the decorated function is called and answers a
    method of [Collection], which is then called on the chosen collection
    with the same arguments. *)
Definition groupfn (fn : Group → list PyVal → Kwargs → result CollectionMethod)
    (obj : Group) (args : list PyVal) (kwargs : Kwargs) : M PyVal :=
  let key := default (match args with [] => PyNone | a :: _ => a end)
                     (kw_get kwargs "key") in
  index <~ lift (shard_index obj key) ;;
  collection <~ lift (match collections obj !! Z.to_nat index with
                      | Some r => Ok r
                      | None => Raise IndexError
                      end) ;;
  m <~ lift (fn obj args kwargs) ;;
  Collection_call m collection args kwargs.

(** A method of [Group] whose body is [return Collection.m]: calling it
    binds the arguments to its parameters and answers the function. *)
Definition returns (ps : Params) (m : CollectionMethod)
  : Group → list PyVal → Kwargs → result CollectionMethod :=
  λ self args kwargs, _ ← bind_params ps args kwargs; Ok m.

(** [def get(self, key, default=None)], decorated. *)
Definition Group_get : Group → list PyVal → Kwargs → M PyVal :=
  groupfn (returns [("key"%string, None); ("default"%string, Some PyNone)]
                   Cget).

(** [def insert(self, key, value)], decorated. *)
Definition Group_insert : Group → list PyVal → Kwargs → M PyVal :=
  groupfn (returns [("key"%string, None); ("value"%string, None)] Cinsert).

(** [def popitem(self)], decorated. *)
Definition Group_popitem : Group → list PyVal → Kwargs → M PyVal :=
  groupfn (returns [] Cpopitem).

(** [def clear(self)], which is not decorated: the call answers the
    function [Collection.clear]. *)
Definition Group_clear (self : Group) (args : list PyVal) (kwargs : Kwargs)
  : M PyVal :=
  m <~ lift (returns [] Cclear self args kwargs) ;;
  ret (PyFunc m).

(** ** The specification's effective size *)

(** The effective size in the specification's words: [total_shards] if
    given, else the highest index in [custom_layout]. *)
Definition spec_effective_size (total_shards : option Z) (custom_layout : Dict)
  : result Z :=
  match total_shards with
  | Some n => Ok n
  | None => max_key (map fst custom_layout)
  end.

(** The entries that the gap-filling loop adds for the bound [n]: one of
    capacity [max_collection_size] for each index below [n], in increasing
    order, that is not a key of the layout. *)
Definition gap_entries (keys : list PyVal) (max_collection_size n : Z) : Dict :=
  map (λ k, (PyInt k, max_collection_size))
      (filter (λ k, PyInt k ∉ keys) (seqZ 0 n)).

(** ** Sample inputs *)

(** The layout [{0: 10, 2: 5}], and what [Group.new] leaves of it when the
    capacity given is 7. *)
Definition layout_0_2 : Dict := [(PyInt 0, 10); (PyInt 2, 5)].
Definition layout_0_2_filled : Dict :=
  [(PyInt 0, 10); (PyInt 2, 5); (PyInt 1, 7)].

(** The group and the heap that [Group.new(custom={0: 10, 2: 5},
    max_collection_size=7)] builds from an empty heap when the identifiers
    drawn are 0, 1, 2. *)
Definition heap_3 : list Collection :=
  [mkCollection 0 10 false []; mkCollection 1 5 false [];
   mkCollection 2 7 false []].
Definition group_3 : Group :=
  mkGroup [0%nat; 1%nat; 2%nat] (mkGroupMeta [0%nat; 1%nat; 2%nat]).

(** Two empty collections of capacity 7, the group over them, and the heap
    after [insert("ab", 5)]. *)
Definition heap_2 : list Collection :=
  [mkCollection 0 7 false []; mkCollection 1 7 false []].
Definition group_2 : Group :=
  mkGroup [0%nat; 1%nat] (mkGroupMeta [0%nat; 1%nat]).
Definition heap_2_used : list Collection :=
  [mkCollection 0 7 false [(PyStr (str "ab"), PyInt 5)];
   mkCollection 1 7 false []].

(** Two collections with the same identifier. *)
Definition heap_same_uuid : list Collection :=
  [mkCollection 5 10 false []; mkCollection 5 20 false []].

(** ** The collections a factory call appends *)

(** The collections that [tuple(Collection(max_size=n) for n in sizes)]
    appends to a heap of length [start]: the one at address [r] is empty,
    has the identifier drawn at [r], the capacity asked for and the default
    strictness. *)
Fixpoint built (DEFAULT_STRICT : bool) (uuid4 : nat → N) (start : nat)
    (sizes : list Z) : list Collection :=
  match sizes with
  | [] => []
  | n :: sizes' =>
      mkCollection (uuid4 start) n DEFAULT_STRICT []
      :: built DEFAULT_STRICT uuid4 (S start) sizes'
  end.

(** Three identifiers, the first two equal. *)
Definition uuid_clash (n : nat) : N :=
  match n with 0%nat => 5%N | 1%nat => 5%N | _ => 9%N end.

(** The layout [{0: 10, 5: 20}]. *)
Definition layout_0_5 : Dict := [(PyInt 0, 10); (PyInt 5, 20)].

(** A strict collection of capacity 0 and the group over it. *)
Definition heap_full : list Collection := [mkCollection 0 0 true []].
Definition group_1 : Group := mkGroup [0%nat] (mkGroupMeta [0%nat]).

(** A string with characters of one, two, three and four bytes. *)
Definition sample_str : list Z := [97; 233; 8364; 128512].

(** * Properties *)

(** ** Results, lists and dictionaries *)

Lemma derefs_length rs h cs : derefs rs h = Ok cs → length cs = length rs.
Proof.
  revert cs. induction rs as [|r rs IH]; intros cs; cbn.
  - intros [= <-]. reflexivity.
  - destruct (h !! r) as [c|]; cbn; [|discriminate].
    destruct (mapM _ rs) as [cs'|e] eqn:E; cbn; [|discriminate].
    intros [= <-]. cbn. f_equal. apply IH. exact E.
Qed.

Lemma derefs_lookup rs h cs i c :
  derefs rs h = Ok cs → cs !! i = Some c →
  ∃ r, rs !! i = Some r ∧ h !! r = Some c.
Proof.
  revert cs i. induction rs as [|r rs IH]; intros cs i; cbn.
  - intros [= <-]. rewrite lookup_nil. discriminate.
  - destruct (h !! r) as [c0|] eqn:Hr; cbn; [|discriminate].
    destruct (mapM _ rs) as [cs'|e] eqn:E; cbn; [|discriminate].
    intros [= <-]. destruct i as [|i]; cbn.
    + intros [= <-]. eauto.
    + intros Hi. apply (IH cs' i); [exact E|exact Hi].
Qed.

Lemma size_list_to_set_le (l : list N) :
  (size (list_to_set l : gset N) ≤ length l)%nat.
Proof.
  induction l as [|x l IH]; cbn.
  - rewrite size_empty. lia.
  - rewrite size_union_alt, size_singleton.
    assert (size (list_to_set l ∖ {[x]} : gset N)
            ≤ size (list_to_set l : gset N))%nat as Hle
      by (apply subseteq_size, subseteq_difference_l; reflexivity).
    lia.
Qed.

Lemma size_list_to_set_NoDup (l : list N) :
  size (list_to_set l : gset N) = length l → NoDup l.
Proof.
  induction l as [|x l IH]; cbn; intros Hs.
  - constructor.
  - pose proof (size_list_to_set_le l) as Hle.
    destruct (decide (x ∈ l)) as [Hin|Hout].
    + exfalso.
      assert ({[x]} ∪ list_to_set l = (list_to_set l : gset N)) as Heq
        by (apply subseteq_union_1_L, singleton_subseteq_l,
              elem_of_list_to_set; exact Hin).
      rewrite Heq in Hs. lia.
    + constructor; [exact Hout|]. apply IH.
      rewrite size_union in Hs by set_solver.
      rewrite size_singleton in Hs. lia.
Qed.

Lemma fold_left_Zmax_ge xs x : x ≤ fold_left Z.max xs x.
Proof.
  revert x. induction xs as [|y xs IH]; intros x; cbn; [lia|].
  etransitivity; [|apply IH]. lia.
Qed.

Lemma fold_left_Zmax_upper xs x :
  Forall (λ y, y ≤ fold_left Z.max xs x) xs.
Proof.
  revert x. induction xs as [|y xs IH]; intros x; cbn; constructor.
  - etransitivity; [|apply fold_left_Zmax_ge]. lia.
  - apply IH.
Qed.

Lemma fold_left_Zmax_elem xs x : fold_left Z.max xs x ∈ x :: xs.
Proof.
  revert x. induction xs as [|y xs IH]; intros x; cbn; [left|].
  specialize (IH (Z.max x y)). apply elem_of_cons in IH as [->|IH].
  - destruct (Z.max_spec x y) as [[_ ->]|[_ ->]]; [right; left|left].
  - right; right; exact IH.
Qed.

(** [max] answers an element that bounds all the others. *)
Lemma py_max_spec xs m :
  py_max xs = Ok m → m ∈ xs ∧ Forall (λ y, y ≤ m) xs.
Proof.
  destruct xs as [|x xs]; cbn; [discriminate|]. intros [= <-]. split.
  - apply fold_left_Zmax_elem.
  - constructor; [apply fold_left_Zmax_ge|apply fold_left_Zmax_upper].
Qed.

Lemma py_max_nonempty xs : xs ≠ [] → ∃ m, py_max xs = Ok m.
Proof. destruct xs; [congruence|]. cbn. eauto. Qed.

(** ** Group.__init__ *)

Lemma Group_init_Ok cols h g h' :
  Group_init cols h = (Ok g, h') →
  h' = h ∧ collections g = cols ∧ meta_collections (meta g) = cols.
Proof.
  unfold Group_init, bind. destruct (derefs cols h) as [cs|e]; [|discriminate].
  case_decide; cbn; [discriminate|]. intros [= <- <-]. auto.
Qed.

(** C7: building a group from a sequence of collections in which two
    positions hold the same identifier raises the [KeyError] of
    [Group.__init__]; no group is answered and the heap is as it was. *)
Theorem Group_init_conflicting_uuid (cols : list Ref) (h : Heap)
    (cs : list Collection) (i j : nat) (ci cj : Collection) :
  derefs cols h = Ok cs →
  i ≠ j → cs !! i = Some ci → cs !! j = Some cj → uuid ci = uuid cj →
  Group_init cols h =
    (Raise (KeyError "Collections must not have conflicting UUID values"), h).
Proof.
  intros Hcs Hij Hi Hj Hu. unfold Group_init, bind. rewrite Hcs.
  destruct (decide _) as [Hsz|Hsz]; [reflexivity|]. exfalso.
  apply dec_stable in Hsz. rewrite <- (derefs_length _ _ _ Hcs) in Hsz.
  rewrite <- (length_map uuid) in Hsz.
  apply size_list_to_set_NoDup in Hsz. apply Hij.
  eapply NoDup_lookup; [exact Hsz| |].
  - rewrite list_lookup_fmap, Hi. reflexivity.
  - rewrite list_lookup_fmap, Hj. cbn. congruence.
Qed.

(** ** Group.status *)

Section status.
Variable Collection_status : Collection → Z.

(** C9: for a group as its constructor builds it and any state [h] of the
    heap at the time of the read, [Group.status] answers the greatest of
    the statuses that its collections have in [h]: it is the status of one
    of them and no collection has a higher one.  The group has at least
    one collection. *)
Theorem Group_status_is_max (cols : list Ref) (h0 h1 : Heap) (g : Group)
    (h : Heap) (cs : list Collection) :
  Group_init cols h0 = (Ok g, h1) →
  derefs (collections g) h = Ok cs →
  cs ≠ [] →
  ∃ m, Group_status Collection_status g h = Ok m
       ∧ m ∈ map Collection_status cs
       ∧ Forall (λ c, Collection_status c ≤ m) cs.
Proof.
  intros Hinit Hcs Hne.
  destruct (Group_init_Ok _ _ _ _ Hinit) as (_ & Hc & Hm).
  unfold Group_status, GroupMeta_status. rewrite Hm, <- Hc, Hcs. cbn.
  destruct (py_max_nonempty (map Collection_status cs)) as [m Hmax].
  { destruct cs; [congruence|discriminate]. }
  exists m. split; [exact Hmax|].
  apply py_max_spec in Hmax as [Hin Hall]. split; [exact Hin|].
  rewrite List.Forall_map in Hall. exact Hall.
Qed.
End status.

(** ** Routing *)

Lemma assoc_get_set {V} (d : list (PyVal * V)) k v :
  assoc_get (assoc_set d k v) k = Some v.
Proof.
  induction d as [|[k' v'] d IH]; cbn.
  - rewrite decide_True by reflexivity. reflexivity.
  - destruct (decide (k' = k)) as [->|Hne]; cbn.
    + rewrite decide_True by reflexivity. reflexivity.
    + rewrite decide_False by exact Hne. exact IH.
Qed.

Lemma Collection_get_insert c k v c' dflt :
  Collection_insert c k v = Ok c' → Collection_get c' k dflt = v.
Proof.
  unfold Collection_insert, Collection_get.
  destruct (_ && _); [discriminate|]. intros [= <-]. cbn.
  rewrite assoc_get_set. reflexivity.
Qed.

(** The index is a position of the sequence of collections. *)
Lemma shard_index_lookup g key i :
  shard_index g key = Ok i →
  0 ≤ i < Z.of_nat (length (collections g))
  ∧ ∃ ref, collections g !! Z.to_nat i = Some ref.
Proof.
  unfold shard_index, py_mod. destruct (py_encode key) as [b|e]; cbn;
    [|discriminate].
  destruct (Z.eqb_spec (Z.of_nat (length (collections g))) 0) as [|Hn];
    [discriminate|].
  intros [= <-].
  assert (0 ≤ int_from_bytes b `mod` Z.of_nat (length (collections g))
          < Z.of_nat (length (collections g))) as Hr
    by (apply Z.mod_pos_bound; lia).
  split; [exact Hr|]. apply lookup_lt_is_Some_2. lia.
Qed.

(** C3: the index of a key is its integer encoding modulo the number of
    collections, a function of the key and of that number alone; an
    [insert(k, v)] that succeeds writes the collection at that index and
    nothing else, and a [get(k)] issued afterwards reads that same
    collection, so it answers [v]. *)
Theorem routing_read_after_write (g : Group) (k v r : PyVal) (h h' : Heap) :
  Group_insert g [k; v] [] h = (Ok r, h') →
  ∃ (b : list Z) (i : Z) (ref : Ref) (c c' : Collection),
    py_encode k = Ok b
    ∧ i = int_from_bytes b `mod` Z.of_nat (length (collections g))
    ∧ (∀ g', length (collections g') = length (collections g) →
             shard_index g' k = Ok i)
    ∧ collections g !! Z.to_nat i = Some ref
    ∧ h !! ref = Some c
    ∧ Collection_insert c k v = Ok c'
    ∧ h' = <[ref := c']> h
    ∧ ∀ dflt, Group_get g [k; dflt] [] h' = (Ok (Collection_get c' k dflt), h')
              ∧ Collection_get c' k dflt = v.
Proof.
  unfold Group_insert, Group_get, groupfn, bind, lift. cbn.
  destruct (shard_index g k) as [i|e] eqn:Hi; [|discriminate].
  destruct (shard_index_lookup _ _ _ Hi) as (Hrange & ref & Href).
  rewrite Href. unfold Collection_call, bind, lift, deref. cbn.
  destruct (h !! ref) as [c|] eqn:Hc; [|discriminate].
  destruct (Collection_insert c k v) as [c'|e] eqn:Hins; [|discriminate].
  intros [= <- <-].
  assert (∃ b, py_encode k = Ok b ∧
               i = int_from_bytes b `mod` Z.of_nat (length (collections g)))
    as (b & Hb & Hib).
  { revert Hi. unfold shard_index, py_mod.
    destruct (py_encode k) as [b|]; cbn; [|discriminate].
    destruct (_ =? _); [discriminate|]. intros [= <-]. eauto. }
  exists b, i, ref, c, c'. repeat split; try assumption.
  - intros g' Hlen. rewrite <- Hi. unfold shard_index. rewrite Hlen.
    reflexivity.
  - rewrite list_lookup_insert_eq by (eapply lookup_lt_Some; exact Hc).
    reflexivity.
  - eapply Collection_get_insert. exact Hins.
Qed.

Lemma str_encode_Raise s e : str_encode s = Raise e → e = UnicodeEncodeError.
Proof.
  induction s as [|c s IH]; cbn; [discriminate|].
  destruct (utf8_char c) as [b|e'] eqn:Hc; cbn.
  - destruct (str_encode s) as [bs|e'']; cbn; [discriminate|].
    intros [= <-]. apply IH. reflexivity.
  - intros [= <-]. revert Hc. unfold utf8_char.
    destruct (c <? 128), (c <? 2048), (c <? 65536),
      ((55296 <=? c) && (c <=? 57343));
      try discriminate; intros [= <-]; reflexivity.
Qed.

Lemma shard_index_Raise g key e :
  shard_index g key = Raise e →
  e ∈ [AttributeError; UnicodeEncodeError; ZeroDivisionError; TypeError].
Proof.
  unfold shard_index, py_mod.
  destruct (py_encode key) as [b|e'] eqn:Hk; cbn.
  - destruct (_ =? _); [|discriminate]. intros [= <-]. set_solver.
  - intros [= <-]. destruct key; cbn in Hk; try (injection Hk as <-; set_solver).
    apply str_encode_Raise in Hk as ->. set_solver.
Qed.

(** C8: [popitem()], called as documented with no argument, raises
    [AttributeError] in the decorator, before any collection is reached;
    with whatever arguments, the call raises one of [AttributeError],
    [UnicodeEncodeError], [ZeroDivisionError] and [TypeError] and leaves
    the heap as it was: it never answers a pair and never reports an empty
    collection. *)
Theorem Group_popitem_always_raises (g : Group) (h : Heap) :
  Group_popitem g [] [] h = (Raise AttributeError, h)
  ∧ ∀ args kwargs, ∃ e,
      Group_popitem g args kwargs h = (Raise e, h)
      ∧ e ∈ [AttributeError; UnicodeEncodeError; ZeroDivisionError; TypeError].
Proof.
  split; [reflexivity|]. intros args kwargs.
  unfold Group_popitem, groupfn, bind, lift.
  set (key := default _ _).
  destruct (shard_index g key) as [i|e] eqn:Hi.
  - destruct (shard_index_lookup _ _ _ Hi) as (_ & ref & ->).
    exists TypeError. split; [|set_solver].
    unfold returns. destruct args as [|a args]; [|reflexivity].
    destruct kwargs as [|kv kwargs]; [|reflexivity].
    subst key. cbn in Hi. discriminate.
  - exists e. split; [reflexivity|]. eapply shard_index_Raise. exact Hi.
Qed.

(** ** Group.clear *)

(** C1: [clear()] answers the function [Collection.clear] without calling
    it: the heap is the one it was given, so every collection keeps its
    entries and the size of the group is what it was before the call. *)
Theorem Group_clear_keeps_entries (g : Group) (h : Heap) :
  Group_clear g [] [] h = (Ok (PyFunc Cclear), h)
  ∧ Group_size g (Group_clear g [] [] h).2 = Group_size g h.
Proof. split; reflexivity. Qed.

(** [Group.new(size=2)], then [insert("a", 1)], then [clear()]: the entry
    is still there. *)
Example Group_clear_after_insert :
  let '(r, h, _) := Group_new false N.of_nat (Some 2) 7 false None [] in
  ∃ g, r = Ok g ∧
    let '(_, h1) := Group_insert g [PyStr (str "a"); PyInt 1] [] h in
    let '(r2, h2) := Group_clear g [] [] h1 in
    r2 = Ok (PyFunc Cclear) ∧ Group_size g h1 = Ok 1 ∧ Group_size g h2 = Ok 1.
Proof. vm_compute. eexists. repeat split. Qed.

(** ** Group.new: the strict flag and the size check *)

(** C2: [Group.new] does not pass [strict] on: a group built with the flag
    opposite to the default of [Collection] has collections of the default
    strictness.  With one collection of capacity 1, the second insert
    raises the capacity error exactly when the default is strict, whatever
    the flag said. *)
Theorem Group_new_ignores_strict (DEFAULT_STRICT : bool) :
  let '(r, h, _) :=
    Group_new DEFAULT_STRICT N.of_nat (Some 1) 1 (negb DEFAULT_STRICT) None []
  in
  ∃ g, r = Ok g
    ∧ derefs (collections g) h
      = Ok [mkCollection 0%N 1 DEFAULT_STRICT []]
    ∧ let '(_, h1) := Group_insert g [PyStr (str "a"); PyInt 1] [] h in
      (Group_insert g [PyStr (str "b"); PyInt 2] [] h1).1
      = if DEFAULT_STRICT then Raise CollectionCapacityError else Ok PyNone.
Proof. destruct DEFAULT_STRICT; vm_compute; eexists; repeat split. Qed.

Lemma Group_init_nil h :
  Group_init [] h = (Ok (mkGroup [] (mkGroupMeta [])), h).
Proof. reflexivity. Qed.

(** C6: without a custom layout, [Group.new] raises its [ValueError] when
    the size is absent and when it is zero; for a negative size it raises
    nothing and answers a group with no collection, in which the index of
    any key that encodes is a division by zero. *)
Theorem Group_new_size_check (DEFAULT_STRICT : bool) (uuid4 : nat → N)
    (max_collection_size : Z) (strict : bool) (custom : option Dict)
    (h : Heap) :
  custom = None ∨ custom = Some [] →
  Group_new DEFAULT_STRICT uuid4 None max_collection_size strict custom h
    = (Raise (ValueError "Size must be provided if no custom definition is"),
       h, custom)
  ∧ Group_new DEFAULT_STRICT uuid4 (Some 0) max_collection_size strict custom h
    = (Raise (ValueError "Size must be provided if no custom definition is"),
       h, custom)
  ∧ ∀ n, n < 0 →
      Group_new DEFAULT_STRICT uuid4 (Some n) max_collection_size strict
        custom h
      = (Ok (mkGroup [] (mkGroupMeta [])), h, custom)
      ∧ ∀ key b, py_encode key = Ok b →
          shard_index (mkGroup [] (mkGroupMeta [])) key
          = Raise ZeroDivisionError.
Proof.
  intros [-> | ->]; (split; [reflexivity|split; [reflexivity|]]);
    intros n Hn; (split; [|intros key b Hb; unfold shard_index; rewrite Hb;
                           reflexivity]);
    unfold Group_new, not_size; destruct (Z.eqb_spec n 0) as [|_]; try lia;
    cbn [default]; destruct n as [|p|p]; try lia; reflexivity.
Qed.

(** ** Group.new: filling the gaps of a custom layout *)

Lemma assoc_get_None {V} (d : list (PyVal * V)) k :
  assoc_get d k = None ↔ k ∉ map fst d.
Proof.
  induction d as [|[k' v'] d IH]; cbn.
  - split; [intros _; apply not_elem_of_nil|reflexivity].
  - rewrite not_elem_of_cons. destruct (decide (k' = k)) as [->|Hne].
    + split; [discriminate|intros [[] _]; reflexivity].
    + rewrite IH. split; [intros; split; [congruence|assumption]|intros [_ ?]; assumption].
Qed.

Lemma assoc_get_app {V} (d e : list (PyVal * V)) k :
  assoc_get (d ++ e) k
  = match assoc_get d k with Some v => Some v | None => assoc_get e k end.
Proof.
  induction d as [|[k' v'] d IH]; cbn; [reflexivity|].
  destruct (decide (k' = k)); [reflexivity|exact IH].
Qed.

Lemma assoc_set_fresh {V} (d : list (PyVal * V)) k v :
  k ∉ map fst d → assoc_set d k v = d ++ [(k, v)].
Proof.
  induction d as [|[k' v'] d IH]; cbn; [reflexivity|].
  rewrite not_elem_of_cons. intros [Hne Hout].
  rewrite decide_False by congruence. f_equal. apply IH. exact Hout.
Qed.

Lemma fill_gaps_fold (keys : list PyVal) (mcs : Z) (l : list Z) (d : Dict) :
  NoDup l →
  (∀ k, k ∈ l → PyInt k ∉ keys → PyInt k ∉ map fst d) →
  fold_left (λ d key, if decide (PyInt key ∈ keys) then d
                      else assoc_set d (PyInt key) mcs) l d
  = d ++ map (λ k, (PyInt k, mcs)) (filter (λ k, PyInt k ∉ keys) l).
Proof.
  revert d. induction l as [|a l IH]; intros d Hnd Hfresh; cbn [fold_left].
  - cbn. rewrite app_nil_r. reflexivity.
  - apply NoDup_cons in Hnd as [Ha Hnd].
    destruct (decide (PyInt a ∈ keys)) as [Hin|Hout].
    + rewrite filter_cons_False by (intros Hn; exact (Hn Hin)).
      apply IH; [exact Hnd|]. intros k Hk. apply Hfresh. right. exact Hk.
    + rewrite filter_cons_True by exact Hout. cbn.
      rewrite assoc_set_fresh by (apply Hfresh; [left|exact Hout]).
      rewrite IH, <- app_assoc; [reflexivity|exact Hnd|].
      intros k Hk Hkout. rewrite map_app, elem_of_app. cbn.
      intros [Hd|Hsingle].
      * apply (Hfresh k); [right; exact Hk|exact Hkout|exact Hd].
      * apply list_elem_of_singleton in Hsingle. injection Hsingle as ->.
        exact (Ha Hk).
Qed.

(** The loop appends to the layout, in order, an entry for each gap. *)
Lemma fill_gaps_spec (mcs n : Z) (d : Dict) :
  fill_gaps (map fst d) mcs n d = d ++ gap_entries (map fst d) mcs n.
Proof.
  unfold fill_gaps, gap_entries. apply fill_gaps_fold.
  - apply NoDup_seqZ.
  - intros k _ Hout. exact Hout.
Qed.

Lemma gap_entries_get keys mcs n k :
  0 ≤ k < n → PyInt k ∉ keys →
  assoc_get (gap_entries keys mcs n) (PyInt k) = Some mcs.
Proof.
  intros Hk Hout. unfold gap_entries.
  assert (k ∈ filter (λ k, PyInt k ∉ keys) (seqZ 0 n)) as Hin.
  { apply list_elem_of_filter. split; [exact Hout|]. apply elem_of_seqZ. lia. }
  induction (filter _ _) as [|a l IH]; [inversion Hin|]. cbn.
  destruct (decide (PyInt a = PyInt k)) as [|Hne]; [reflexivity|].
  apply IH. apply elem_of_cons in Hin as [->|Hin]; [congruence|exact Hin].
Qed.

Global Instance PyInt_inj : Inj (=) (=) PyInt.
Proof. intros x y [= ->]. reflexivity. Qed.

Lemma max_key_ints keys ints :
  mapM (λ k, match k with PyInt z => Ok z | _ => Raise TypeError end) keys
    = Ok ints →
  keys = map PyInt ints.
Proof.
  revert ints. induction keys as [|k keys IH]; intros ints; cbn.
  - intros [= <-]. reflexivity.
  - destruct k; cbn; try discriminate.
    destruct (mapM _ keys) as [ints'|e]; cbn; [|discriminate].
    intros [= <-]. cbn. f_equal. apply IH. reflexivity.
Qed.

(** [max(custom.keys())] answers a key, the greatest; it only answers when
    every key is an integer. *)
Lemma max_key_spec keys highest :
  max_key keys = Ok highest →
  PyInt highest ∈ keys
  ∧ (∀ z, PyInt z ∈ keys → z ≤ highest)
  ∧ (∀ key, key ∈ keys → ∃ z, key = PyInt z).
Proof.
  unfold max_key.
  destruct (mapM _ keys) as [ints|e] eqn:Hints; cbn; [|discriminate].
  apply max_key_ints in Hints as ->. intros Hmax.
  apply py_max_spec in Hmax as [Hin Hall]. split; [|split].
  - apply list_elem_of_fmap. eauto.
  - intros z Hz. apply list_elem_of_fmap in Hz as (z' & [= ->] & Hz').
    rewrite Forall_forall in Hall. apply Hall. exact Hz'.
  - intros key Hkey. apply list_elem_of_fmap in Hkey as (z & -> & _). eauto.
Qed.

Section new.
Variable DEFAULT_STRICT : bool.
Variable uuid4 : nat → N.

Lemma Collection_new_each_length (sizes : list Z) (h : Heap) :
  ∃ refs h', Collection_new_each DEFAULT_STRICT uuid4 sizes h = (Ok refs, h')
             ∧ length refs = length sizes.
Proof.
  revert h. induction sizes as [|n sizes IH]; intros h; cbn.
  - exists [], h. split; reflexivity.
  - unfold bind.
    destruct (IH (h ++ [mkCollection (uuid4 (length h)) n DEFAULT_STRICT []]))
      as (refs & h' & -> & Hlen).
    exists (length h :: refs), h'. split; [reflexivity|]. cbn. lia.
Qed.

(** What a successful call with a non-empty custom layout went through. *)
Lemma Group_new_custom_Ok size mcs strict (d : Dict) (h : Heap) g h' custom' :
  d ≠ [] →
  Group_new DEFAULT_STRICT uuid4 size mcs strict (Some d) h
    = (Ok g, h', custom') →
  ∃ highest,
    max_key (map fst d) = Ok highest
    ∧ let n := if not_size size then highest else default 0 size in
      (n = 0 ∨ highest ≤ n)
      ∧ custom' = Some (fill_gaps (map fst d) mcs n d)
      ∧ length (collections g) = length (fill_gaps (map fst d) mcs n d).
Proof.
  intros Hne. unfold Group_new. destruct d as [|kv d0]; [congruence|].
  set (d := kv :: d0).
  destruct (existsb _ _); [discriminate|].
  destruct (max_key (map fst d)) as [highest|e]; [|discriminate].
  set (n := if not_size size then highest else default 0 size).
  destruct (negb (n =? 0) && (n <? highest)) eqn:Hchk; [discriminate|].
  unfold bind.
  destruct (Collection_new_each_length (map snd (fill_gaps (map fst d) mcs n d)) h)
    as (refs & h1 & -> & Hlen).
  destruct (Group_init refs h1) as [[g1|e] h2] eqn:Hinit; [|discriminate].
  intros [= <- <- <-]. exists highest. split; [reflexivity|]. cbn zeta.
  split; [|split; [reflexivity|]].
  - apply andb_false_iff in Hchk as [Hz|Hlt].
    + left. apply negb_false_iff, Z.eqb_eq in Hz. exact Hz.
    + right. apply Z.ltb_ge in Hlt. exact Hlt.
  - apply Group_init_Ok in Hinit as (_ & -> & _).
    rewrite Hlen, length_map. reflexivity.
Qed.

(** C10: a successful call with a non-empty custom layout leaves the
    caller's dictionary with its entries as they were, followed by one
    entry of capacity [max_collection_size] for each gap below the bound
    of the loop: every such index, absent before the call, is present
    with that capacity after it. *)
Theorem Group_new_fills_custom_in_place size mcs strict (d : Dict)
    (h : Heap) g h' custom' :
  d ≠ [] →
  Group_new DEFAULT_STRICT uuid4 size mcs strict (Some d) h
    = (Ok g, h', custom') →
  ∃ highest d',
    max_key (map fst d) = Ok highest
    ∧ custom' = Some d'
    ∧ let n := if not_size size then highest else default 0 size in
      d' = d ++ gap_entries (map fst d) mcs n
      ∧ ∀ k, 0 ≤ k < n → PyInt k ∉ map fst d →
          assoc_get d (PyInt k) = None ∧ assoc_get d' (PyInt k) = Some mcs.
Proof.
  intros Hne Hnew.
  destruct (Group_new_custom_Ok _ _ _ _ _ _ _ _ Hne Hnew)
    as (highest & Hmax & _ & -> & _).
  exists highest, (fill_gaps (map fst d) mcs
                    (if not_size size then highest else default 0 size) d).
  split; [exact Hmax|split; [reflexivity|]]. cbn zeta.
  rewrite fill_gaps_spec. split; [reflexivity|].
  intros k Hk Hout.
  assert (assoc_get d (PyInt k) = None) as Hnone by (apply assoc_get_None; exact Hout).
  split; [exact Hnone|].
  rewrite assoc_get_app, Hnone. apply gap_entries_get; assumption.
Qed.

(** C4, as the code has it: a successful call with a custom layout whose
    keys are distinct non-negative integers answers a group of [n]
    collections, where [n] is the requested size when one is given that
    exceeds the highest key, and the highest key plus one when no size
    (or zero) is given; the keys of the layout after the call are exactly
    the indices [0 .. n-1], each once. *)
Theorem Group_new_custom_length size mcs strict (d : Dict) (h : Heap)
    g h' custom' highest :
  d ≠ [] →
  NoDup (map fst d) →
  (∀ z, PyInt z ∈ map fst d → 0 ≤ z) →
  max_key (map fst d) = Ok highest →
  match size with None => True | Some s => s = 0 ∨ highest < s end →
  Group_new DEFAULT_STRICT uuid4 size mcs strict (Some d) h
    = (Ok g, h', custom') →
  let n := if not_size size then highest + 1 else default 0 size in
  Z.of_nat (length (collections g)) = n
  ∧ ∃ d', custom' = Some d' ∧ map fst d' ≡ₚ map PyInt (seqZ 0 n).
Proof.
  intros Hne Hnd Hpos Hmax Hsize Hnew.
  destruct (Group_new_custom_Ok _ _ _ _ _ _ _ _ Hne Hnew)
    as (highest' & Hmax' & _ & -> & Hlen).
  rewrite Hmax in Hmax'. injection Hmax' as <-.
  destruct (max_key_spec _ _ Hmax) as (Htop & Hle & Hint).
  pose proof (Hpos _ Htop) as Hh0.
  set (m := if not_size size then highest else default 0 size) in *.
  set (n := if not_size size then highest + 1 else default 0 size).
  assert (m ≤ n ∧ highest < n ∧ (m = n ∨ n = m + 1 ∧ m = highest))
    as (Hmn & Hhn & Hm).
  { subst m n. destruct size as [s|]; cbn; [|lia].
    destruct (Z.eqb_spec s 0); cbn; [lia|]. destruct Hsize; lia. }
  rewrite fill_gaps_spec in *.
  assert (map fst (d ++ gap_entries (map fst d) mcs m)
          ≡ₚ map PyInt (seqZ 0 n)) as Hperm.
  { rewrite map_app. unfold gap_entries. rewrite map_map. cbn [fst].
    apply NoDup_Permutation.
    - apply NoDup_app. split; [exact Hnd|]. split.
      + intros x Hx Hgap.
        apply list_elem_of_fmap in Hgap as (k & -> & Hk).
        apply list_elem_of_filter in Hk as [Hout _]. exact (Hout Hx).
      + apply (NoDup_fmap_2 PyInt), NoDup_filter, NoDup_seqZ.
    - apply (NoDup_fmap_2 PyInt), NoDup_seqZ.
    - intros x. rewrite elem_of_app. split.
      + intros [Hx|Hgap].
        * destruct (Hint _ Hx) as [z ->]. apply list_elem_of_fmap.
          exists z. split; [reflexivity|]. apply elem_of_seqZ.
          pose proof (Hpos _ Hx). pose proof (Hle _ Hx). lia.
        * apply list_elem_of_fmap in Hgap as (k & -> & Hk).
          apply list_elem_of_filter in Hk as [_ Hk].
          apply elem_of_seqZ in Hk. apply list_elem_of_fmap.
          exists k. split; [reflexivity|]. apply elem_of_seqZ. lia.
      + intros Hx. apply list_elem_of_fmap in Hx as (k & -> & Hk).
        apply elem_of_seqZ in Hk.
        destruct (decide (PyInt k ∈ map fst d)) as [Hin|Hout]; [left; exact Hin|].
        right. apply list_elem_of_fmap. exists k. split; [reflexivity|].
        apply list_elem_of_filter. split; [exact Hout|].
        apply elem_of_seqZ. destruct Hm as [Hm|[Hn Hm]]; [lia|].
        assert (k ≠ highest) by (intros ->; exact (Hout Htop)). lia. }
  split.
  - rewrite Hlen, <- (length_map fst), (Permutation_length Hperm).
    rewrite length_map, length_seqZ. lia.
  - eexists. split; [reflexivity|exact Hperm].
Qed.
End new.

(** ** The layout [{0: 10, 2: 5}] *)

(** C5: for the layout [{0: 10, 2: 5}] and no size, the factory answers
    three collections whose capacities are, by position, 10, 5 and the
    default: the gap entry is appended to the dictionary and the
    collections follow the dictionary's order, so the collection at index 1
    has capacity 5 and the one at index 2 the default. *)
Theorem Group_new_gap_fill_order (DEFAULT_MAX : Z) (DEFAULT_STRICT : bool) :
  let '(r, h, custom') :=
    Group_new DEFAULT_STRICT N.of_nat None DEFAULT_MAX false
      (Some layout_0_2) [] in
  ∃ g cs, r = Ok g
    ∧ derefs (collections g) h = Ok cs
    ∧ map max_size cs = [10; 5; DEFAULT_MAX]
    ∧ custom' = Some [(PyInt 0, 10); (PyInt 2, 5); (PyInt 1, DEFAULT_MAX)].
Proof. vm_compute. do 2 eexists. repeat split. Qed.

(** The same call builds three collections, one more than the effective
    size of the specification, which is the highest index, 2. *)
Lemma Group_new_custom_length_counterexample :
  ∃ g h custom',
    Group_new false N.of_nat None 7 false (Some layout_0_2) []
      = (Ok g, h, custom')
    ∧ spec_effective_size None layout_0_2 = Ok 2
    ∧ Z.of_nat (length (collections g)) ≠ 2.
Proof.
  do 3 eexists. split; [vm_compute; reflexivity|].
  split; [reflexivity|]. vm_compute. discriminate.
Qed.

(** ** Instances *)

Lemma Group_new_custom_length_witness :
  Z.of_nat (length (collections group_3)) = 3
  ∧ ∃ d', Some layout_0_2_filled = Some d'
          ∧ map fst d' ≡ₚ map PyInt (seqZ 0 3).
Proof.
  apply (Group_new_custom_length false N.of_nat None 7 false layout_0_2 []
           group_3 heap_3 (Some layout_0_2_filled) 2).
  - discriminate.
  - apply (bool_decide_unpack _). vm_compute. exact I.
  - intros z Hz. cbn in Hz.
    repeat (apply elem_of_cons in Hz as [Hz|Hz]; [injection Hz as ->; lia|]).
    inversion Hz.
  - reflexivity.
  - exact I.
  - vm_compute. reflexivity.
Defined.

Lemma Group_new_fills_custom_in_place_witness :
  ∃ highest d',
    max_key (map fst layout_0_2) = Ok highest
    ∧ Some layout_0_2_filled = Some d'
    ∧ let n := if not_size None then highest else default 0 None in
      d' = layout_0_2 ++ gap_entries (map fst layout_0_2) 7 n
      ∧ ∀ k, 0 ≤ k < n → PyInt k ∉ map fst layout_0_2 →
          assoc_get layout_0_2 (PyInt k) = None
          ∧ assoc_get d' (PyInt k) = Some 7.
Proof.
  apply (Group_new_fills_custom_in_place false N.of_nat None 7 false
           layout_0_2 [] group_3 heap_3 (Some layout_0_2_filled)).
  - discriminate.
  - vm_compute. reflexivity.
Defined.

Lemma Group_new_size_check_witness :
  Group_new false N.of_nat (Some (-1)) 7 false None []
    = (Ok (mkGroup [] (mkGroupMeta [])), [], None)
  ∧ ∀ key b, py_encode key = Ok b →
      shard_index (mkGroup [] (mkGroupMeta [])) key = Raise ZeroDivisionError.
Proof.
  destruct (Group_new_size_check false N.of_nat 7 false None []
              (or_introl eq_refl)) as (_ & _ & Hneg).
  apply (Hneg (-1)). lia.
Defined.

Lemma Group_init_conflicting_uuid_witness :
  Group_init [0%nat; 1%nat] heap_same_uuid
  = (Raise (KeyError "Collections must not have conflicting UUID values"),
     heap_same_uuid).
Proof.
  apply (Group_init_conflicting_uuid [0%nat; 1%nat] heap_same_uuid
           heap_same_uuid 0 1 (mkCollection 5 10 false [])
           (mkCollection 5 20 false [])).
  - reflexivity.
  - lia.
  - reflexivity.
  - reflexivity.
  - reflexivity.
Defined.

Lemma Group_status_is_max_witness :
  ∃ m, Group_status Collection_size group_2 heap_2_used = Ok m
       ∧ m ∈ map Collection_size heap_2_used
       ∧ Forall (λ c, Collection_size c ≤ m) heap_2_used.
Proof.
  apply (Group_status_is_max Collection_size [0%nat; 1%nat] heap_2 heap_2
           group_2 heap_2_used heap_2_used).
  - vm_compute. reflexivity.
  - reflexivity.
  - discriminate.
Defined.

Lemma routing_read_after_write_witness :
  ∃ (b : list Z) (i : Z) (ref : Ref) (c c' : Collection),
    py_encode (PyStr (str "ab")) = Ok b
    ∧ i = int_from_bytes b `mod` Z.of_nat (length (collections group_2))
    ∧ (∀ g', length (collections g') = length (collections group_2) →
             shard_index g' (PyStr (str "ab")) = Ok i)
    ∧ collections group_2 !! Z.to_nat i = Some ref
    ∧ heap_2 !! ref = Some c
    ∧ Collection_insert c (PyStr (str "ab")) (PyInt 5) = Ok c'
    ∧ heap_2_used = <[ref := c']> heap_2
    ∧ ∀ dflt,
        Group_get group_2 [PyStr (str "ab"); dflt] [] heap_2_used
          = (Ok (Collection_get c' (PyStr (str "ab")) dflt), heap_2_used)
        ∧ Collection_get c' (PyStr (str "ab")) dflt = PyInt 5.
Proof.
  apply (routing_read_after_write group_2 (PyStr (str "ab")) (PyInt 5) PyNone
           heap_2 heap_2_used).
  vm_compute. reflexivity.
Defined.

(** * Further properties *)

(** ** What the factory builds *)

Lemma built_length ds uuid4 start sizes :
  length (built ds uuid4 start sizes) = length sizes.
Proof.
  revert start. induction sizes as [|n sizes IH]; intros start; cbn;
    [reflexivity|]. rewrite IH. reflexivity.
Qed.

Lemma built_max_size ds uuid4 start sizes :
  map max_size (built ds uuid4 start sizes) = sizes.
Proof.
  revert start. induction sizes as [|n sizes IH]; intros start; cbn;
    [reflexivity|]. rewrite IH. reflexivity.
Qed.

Lemma built_uuid ds uuid4 start sizes :
  map uuid (built ds uuid4 start sizes)
  = map uuid4 (seq start (length sizes)).
Proof.
  revert start. induction sizes as [|n sizes IH]; intros start; cbn;
    [reflexivity|]. rewrite IH. reflexivity.
Qed.

Lemma built_empty ds uuid4 start sizes :
  Forall (λ c, strict c = ds ∧ data c = []) (built ds uuid4 start sizes).
Proof.
  revert start. induction sizes as [|n sizes IH]; intros start; cbn;
    constructor; [split; reflexivity|apply IH].
Qed.

Lemma Collection_new_each_spec ds uuid4 (sizes : list Z) (h : Heap) :
  Collection_new_each ds uuid4 sizes h
  = (Ok (seq (length h) (length sizes)),
     h ++ built ds uuid4 (length h) sizes).
Proof.
  revert h. induction sizes as [|n sizes IH]; intros h; cbn.
  - rewrite app_nil_r. reflexivity.
  - unfold bind. rewrite IH. cbn. rewrite length_app, <- app_assoc. cbn.
    rewrite Nat.add_1_r. reflexivity.
Qed.

Lemma derefs_app_seq (h cs : Heap) :
  derefs (seq (length h) (length cs)) (h ++ cs) = Ok cs.
Proof.
  revert h. induction cs as [|c cs IH]; intros h; [reflexivity|].
  cbn [length seq]. unfold derefs. cbn [mapM].
  rewrite lookup_app_r, Nat.sub_diag by lia. cbn.
  specialize (IH (h ++ [c])). rewrite length_app, <- app_assoc in IH.
  cbn in IH. rewrite Nat.add_1_r in IH. unfold derefs in IH. rewrite IH.
  reflexivity.
Qed.

Lemma Group_init_NoDup cols h cs :
  derefs cols h = Ok cs → NoDup (map uuid cs) →
  Group_init cols h = (Ok (mkGroup cols (mkGroupMeta cols)), h).
Proof.
  intros Hcs Hnd. unfold Group_init, bind. rewrite Hcs.
  rewrite (size_list_to_set (C := gset N)) by exact Hnd.
  rewrite length_map, (derefs_length _ _ _ Hcs).
  destruct (decide _) as [Hne|_]; [congruence|reflexivity].
Qed.

Lemma Group_init_dup cols h cs :
  derefs cols h = Ok cs → ¬ NoDup (map uuid cs) →
  Group_init cols h
  = (Raise (KeyError "Collections must not have conflicting UUID values"), h).
Proof.
  intros Hcs Hnd. unfold Group_init, bind. rewrite Hcs.
  destruct (decide _) as [_|Heq]; [reflexivity|]. exfalso. apply Hnd.
  apply dec_stable in Heq. apply size_list_to_set_NoDup.
  rewrite Heq, length_map. symmetry. apply (derefs_length _ _ _ Hcs).
Qed.

Lemma built_const ds uuid4 start (mcs : Z) (l : list Z) :
  built ds uuid4 start (map (λ _, mcs) l)
  = map (λ r, mkCollection (uuid4 r) mcs ds []) (seq start (length l)).
Proof.
  revert start. induction l as [|x l IH]; intros start; cbn; [reflexivity|].
  rewrite IH. reflexivity.
Qed.

Lemma existsb_not_int keys highest :
  max_key keys = Ok highest → existsb (λ key, negb (is_int key)) keys = false.
Proof.
  intros Hmax. destruct (max_key_spec _ _ Hmax) as (_ & _ & Hint).
  clear Hmax. induction keys as [|k keys IH]; [reflexivity|]. cbn.
  destruct (Hint k) as [z ->]; [left|]. cbn. apply IH.
  intros key Hkey. apply Hint. right. exact Hkey.
Qed.

Section factory.
Variable DEFAULT_STRICT : bool.
Variable uuid4 : nat → N.

(** A call without a layout and with a size other than zero builds one
    collection per index of [range(size)] and hands them to the
    constructor. *)
Lemma Group_new_plain_run (n mcs : Z) strict custom (h : Heap) :
  custom = None ∨ custom = Some [] → n ≠ 0 →
  let refs := seq (length h) (Z.to_nat n) in
  let h' := h ++ map (λ r, mkCollection (uuid4 r) mcs DEFAULT_STRICT []) refs in
  Group_new DEFAULT_STRICT uuid4 (Some n) mcs strict custom h
  = ((Group_init refs h').1, h', custom)
  ∧ derefs refs h'
    = Ok (map (λ r, mkCollection (uuid4 r) mcs DEFAULT_STRICT []) refs).
Proof.
  intros Hc Hn refs h'.
  assert (h' = h ++ built DEFAULT_STRICT uuid4 (length h)
                     (map (λ _, mcs) (seqZ 0 n))) as Hh'.
  { subst h' refs. rewrite built_const, length_seqZ. reflexivity. }
  assert (refs = seq (length h) (length (map (λ _ : Z, mcs) (seqZ 0 n))))
    as Hrefs by (subst refs; rewrite length_map, length_seqZ; reflexivity).
  split.
  - unfold Group_new, not_size. destruct (Z.eqb_spec n 0) as [|_]; [lia|].
    change (default 0 (Some n)) with n. unfold bind.
    rewrite Collection_new_each_spec, <- Hh', <- Hrefs.
    destruct (Group_init refs h') as [r h''] eqn:Hinit.
    assert (h'' = h') as ->.
    { revert Hinit. unfold Group_init, bind.
      destruct (derefs refs h'); [|intros [= _ <-]; reflexivity].
      destruct (decide _); cbn; intros [= _ <-]; reflexivity. }
    destruct Hc as [-> | ->]; reflexivity.
  - subst h' refs.
    set (cs := map _ _).
    assert (length cs = Z.to_nat n) as <-
      by (subst cs; rewrite length_map, length_seq; reflexivity).
    apply derefs_app_seq.
Qed.

(** A call with a non-empty layout that passes the two checks fills the
    gaps, builds one collection per entry of the filled layout, in the
    layout's order, and hands them to the constructor. *)
Lemma Group_new_custom_run size mcs strict (d : Dict) (h : Heap) highest :
  d ≠ [] →
  max_key (map fst d) = Ok highest →
  let n := if not_size size then highest else default 0 size in
  n = 0 ∨ highest ≤ n →
  let d' := d ++ gap_entries (map fst d) mcs n in
  let cs := built DEFAULT_STRICT uuid4 (length h) (map snd d') in
  let refs := seq (length h) (length d') in
  Group_new DEFAULT_STRICT uuid4 size mcs strict (Some d) h
  = ((Group_init refs (h ++ cs)).1, h ++ cs, Some d')
  ∧ derefs refs (h ++ cs) = Ok cs.
Proof.
  intros Hne Hmax n Hn d' cs refs.
  assert (length cs = length d') as Hlen
    by (subst cs; rewrite built_length, length_map; reflexivity).
  split.
  - unfold Group_new. destruct d as [|kv d0]; [congruence|].
    rewrite (existsb_not_int _ _ Hmax), Hmax. fold n.
    assert (negb (n =? 0) && (n <? highest) = false) as ->.
    { destruct Hn as [-> | Hle]; [reflexivity|].
      rewrite (proj2 (Z.ltb_ge n highest)) by exact Hle.
      apply andb_false_r. }
    rewrite fill_gaps_spec. fold d'. unfold bind.
    rewrite Collection_new_each_spec, length_map. fold cs refs.
    destruct (Group_init refs (h ++ cs)) as [r h''] eqn:Hinit.
    assert (h'' = h ++ cs) as ->; [|reflexivity].
    revert Hinit. unfold Group_init, bind.
    destruct (derefs refs (h ++ cs)); [|intros [= _ <-]; reflexivity].
    destruct (decide _); cbn; intros [= _ <-]; reflexivity.
  - subst refs. rewrite <- Hlen. apply derefs_app_seq.
Qed.

(** X1: without a layout, a positive size [n] and identifiers that do not
    repeat give a group of exactly [n] new collections, appended to the
    heap at consecutive addresses, each empty, of capacity
    [max_collection_size] and of the default strictness; the collections
    already on the heap are not touched. *)
Theorem Group_new_equal_shards (n mcs : Z) strict custom (h : Heap) :
  custom = None ∨ custom = Some [] →
  0 < n →
  NoDup (map uuid4 (seq (length h) (Z.to_nat n))) →
  Group_new DEFAULT_STRICT uuid4 (Some n) mcs strict custom h
  = (Ok (mkGroup (seq (length h) (Z.to_nat n))
                 (mkGroupMeta (seq (length h) (Z.to_nat n)))),
     h ++ map (λ r, mkCollection (uuid4 r) mcs DEFAULT_STRICT [])
              (seq (length h) (Z.to_nat n)),
     custom).
Proof.
  intros Hc Hn Hnd.
  destruct (Group_new_plain_run n mcs strict custom h Hc) as [-> Hcs]; [lia|].
  rewrite (Group_init_NoDup _ _ _ Hcs); [reflexivity|].
  rewrite map_map. cbn. exact Hnd.
Qed.

(** X2: the collections of a group built from a layout are new, appended
    to the heap at consecutive addresses, empty and of the default
    strictness, and their capacities are, position by position, the values
    of the layout as the call leaves it: the dictionary's insertion order
    decides which capacity an index gets, not its keys. *)
Theorem Group_new_custom_shards size mcs (flag : bool) (d : Dict) (h : Heap)
    g h' custom' :
  d ≠ [] →
  Group_new DEFAULT_STRICT uuid4 size mcs flag (Some d) h
    = (Ok g, h', custom') →
  ∃ d' cs,
    custom' = Some d'
    ∧ collections g = seq (length h) (length d')
    ∧ h' = h ++ cs
    ∧ derefs (collections g) h' = Ok cs
    ∧ map max_size cs = map snd d'
    ∧ Forall (λ c, strict c = DEFAULT_STRICT ∧ data c = []) cs.
Proof.
  intros Hne Hnew.
  destruct (Group_new_custom_Ok _ _ _ _ _ _ _ _ _ _ Hne Hnew)
    as (highest & Hmax & Hn & _ & _). cbn zeta in Hn.
  destruct (Group_new_custom_run size mcs flag d h highest Hne Hmax Hn)
    as [Hrun Hcs].
  rewrite Hrun in Hnew. injection Hnew as Hinit <- <-.
  destruct (Group_init _ _) as [r h''] eqn:Hi. cbn in Hinit. subst r.
  apply Group_init_Ok in Hi as (_ & Hcols & _).
  eexists _, _. split; [reflexivity|]. rewrite Hcols.
  split; [reflexivity|]. split; [reflexivity|]. split; [exact Hcs|].
  split; [apply built_max_size|apply built_empty].
Qed.

(** X3: when the identifiers drawn for the new collections repeat, the
    call with a layout raises the constructor's [KeyError], and yet its
    effects stay: the caller's dictionary has the gap entries and the heap
    has the collections that were built. *)
Theorem Group_new_conflict_keeps_effects size mcs strict (d : Dict)
    (h : Heap) highest :
  d ≠ [] →
  max_key (map fst d) = Ok highest →
  let n := if not_size size then highest else default 0 size in
  n = 0 ∨ highest ≤ n →
  let d' := d ++ gap_entries (map fst d) mcs n in
  ¬ NoDup (map uuid4 (seq (length h) (length d'))) →
  Group_new DEFAULT_STRICT uuid4 size mcs strict (Some d) h
  = (Raise (KeyError "Collections must not have conflicting UUID values"),
     h ++ built DEFAULT_STRICT uuid4 (length h) (map snd d'),
     Some d').
Proof.
  intros Hne Hmax n Hn d' Hdup.
  destruct (Group_new_custom_run size mcs strict d h highest Hne Hmax Hn)
    as [-> Hcs].
  rewrite (Group_init_dup _ _ _ Hcs); [reflexivity|].
  rewrite built_uuid, length_map. exact Hdup.
Qed.

(** X4: a layout with a key that is not an integer is refused with the
    [KeyError] of the type check, before anything is built: the heap and
    the caller's dictionary are as they were. *)
Theorem Group_new_non_int_key size mcs strict (d : Dict) (h : Heap) key :
  key ∈ map fst d →
  is_int key = false →
  Group_new DEFAULT_STRICT uuid4 size mcs strict (Some d) h
  = (Raise (KeyError "Custom collection keys must be integers"), h, Some d).
Proof.
  intros Hin Hkey. unfold Group_new.
  destruct d as [|kv d0]; [inversion Hin|].
  assert (existsb (λ key, negb (is_int key)) (map fst (kv :: d0)) = true)
    as ->; [|reflexivity].
  apply existsb_exists. exists key. split.
  - apply list_elem_of_In. exact Hin.
  - rewrite Hkey. reflexivity.
Qed.

(** X5: an explicit size, other than zero, that is below the highest key
    of the layout is refused with the [KeyError] of the size check, before
    any gap is filled: the heap and the caller's dictionary are as they
    were. *)
Theorem Group_new_size_below_highest (s : Z) mcs strict (d : Dict)
    (h : Heap) highest :
  max_key (map fst d) = Ok highest →
  s ≠ 0 →
  s < highest →
  Group_new DEFAULT_STRICT uuid4 (Some s) mcs strict (Some d) h
  = (Raise (KeyError "Size must be greater than highest key"), h, Some d).
Proof.
  intros Hmax Hs Hlt. unfold Group_new.
  destruct d as [|kv d0]; [discriminate|].
  rewrite (existsb_not_int _ _ Hmax), Hmax. unfold not_size.
  destruct (Z.eqb_spec s 0) as [|_]; [lia|].
  change (default 0 (Some s)) with s.
  rewrite (proj2 (Z.ltb_lt s highest)) by exact Hlt.
  rewrite (proj2 (Z.eqb_neq s 0)) by exact Hs. reflexivity.
Qed.
End factory.

(** The keys of a layout of distinct non-negative integers, once the gaps
    below a bound [n] not under the highest key are filled, are the indices
    below the greater of [n] and the highest key plus one, each once. *)
Lemma filled_keys_perm (d : Dict) mcs n highest :
  NoDup (map fst d) →
  (∀ z, PyInt z ∈ map fst d → 0 ≤ z) →
  max_key (map fst d) = Ok highest →
  highest ≤ n →
  map fst (d ++ gap_entries (map fst d) mcs n)
  ≡ₚ map PyInt (seqZ 0 (Z.max n (highest + 1))).
Proof.
  intros Hnd Hpos Hmax Hn.
  destruct (max_key_spec _ _ Hmax) as (Htop & Hle & Hint).
  rewrite map_app. unfold gap_entries. rewrite map_map. cbn [fst].
  apply NoDup_Permutation.
  - apply NoDup_app. split; [exact Hnd|]. split.
    + intros x Hx Hgap. apply list_elem_of_fmap in Hgap as (k & -> & Hk).
      apply list_elem_of_filter in Hk as [Hout _]. exact (Hout Hx).
    + apply (NoDup_fmap_2 PyInt), NoDup_filter, NoDup_seqZ.
  - apply (NoDup_fmap_2 PyInt), NoDup_seqZ.
  - intros x. rewrite elem_of_app. split.
    + intros [Hx|Hgap].
      * destruct (Hint _ Hx) as [z ->]. apply list_elem_of_fmap.
        exists z. split; [reflexivity|]. apply elem_of_seqZ.
        pose proof (Hpos _ Hx). pose proof (Hle _ Hx). lia.
      * apply list_elem_of_fmap in Hgap as (k & -> & Hk).
        apply list_elem_of_filter in Hk as [_ Hk].
        apply elem_of_seqZ in Hk. apply list_elem_of_fmap.
        exists k. split; [reflexivity|]. apply elem_of_seqZ. lia.
    + intros Hx. apply list_elem_of_fmap in Hx as (k & -> & Hk).
      apply elem_of_seqZ in Hk.
      destruct (decide (PyInt k ∈ map fst d)) as [Hin|Hout];
        [left; exact Hin|].
      right. apply list_elem_of_fmap. exists k. split; [reflexivity|].
      apply list_elem_of_filter. split; [exact Hout|].
      apply elem_of_seqZ.
      assert (k ≠ highest) by (intros ->; exact (Hout Htop)). lia.
Qed.

Section factory_count.
Variable DEFAULT_STRICT : bool.
Variable uuid4 : nat → N.

(** X6: for a layout of distinct non-negative integer keys, a successful
    call answers as many collections as the greater of the loop bound and
    the highest key plus one, the bound being the size if one other than
    zero is given and the highest key otherwise.  So a size equal to the
    highest key gives one collection more than the size. *)
Theorem Group_new_custom_count size mcs flag (d : Dict) (h : Heap)
    g h' custom' highest :
  NoDup (map fst d) →
  (∀ z, PyInt z ∈ map fst d → 0 ≤ z) →
  max_key (map fst d) = Ok highest →
  Group_new DEFAULT_STRICT uuid4 size mcs flag (Some d) h
    = (Ok g, h', custom') →
  let n := if not_size size then highest else default 0 size in
  Z.of_nat (length (collections g)) = Z.max n (highest + 1)
  ∧ (size = Some highest → highest ≠ 0 →
     Z.of_nat (length (collections g)) = highest + 1).
Proof.
  intros Hnd Hpos Hmax Hnew n.
  assert (d ≠ []) as Hne by (intros ->; discriminate).
  destruct (Group_new_custom_Ok _ _ _ _ _ _ _ _ _ _ Hne Hnew)
    as (highest' & Hmax' & Hn & _ & Hlen).
  rewrite Hmax in Hmax'. injection Hmax' as <-. cbn zeta in Hn, Hlen.
  fold n in Hn, Hlen.
  assert (highest ≤ n) as Hhn.
  { destruct Hn as [Hz|Hle]; [|exact Hle]. subst n. unfold not_size in *.
    destruct size as [s|]; [|lia].
    destruct (Z.eqb_spec s 0); cbn in *; lia. }
  assert (Z.of_nat (length (collections g)) = Z.max n (highest + 1)) as Hcount.
  { rewrite Hlen, fill_gaps_spec, <- (length_map fst).
    rewrite (Permutation_length (filled_keys_perm d mcs n highest
                                   Hnd Hpos Hmax Hhn)).
    rewrite length_map, length_seqZ.
    pose proof (Hpos _ (proj1 (max_key_spec _ _ Hmax))). lia. }
  split; [exact Hcount|].
  intros -> Hnz. rewrite Hcount. subst n. unfold not_size.
  destruct (Z.eqb_spec highest 0); cbn; lia.
Qed.
End factory_count.

(** ** The constructor and the derived statistics *)

(** X7: over live references, the constructor succeeds exactly when the
    identifiers of the collections are pairwise distinct; the group it
    answers holds the sequence it was given, and its metadata the same
    references. *)
Theorem Group_init_iff_distinct (cols : list Ref) (h : Heap)
    (cs : list Collection) :
  derefs cols h = Ok cs →
  Group_init cols h = (Ok (mkGroup cols (mkGroupMeta cols)), h)
  ↔ NoDup (map uuid cs).
Proof.
  intros Hcs. split.
  - intros Hinit. destruct (decide (NoDup (map uuid cs))) as [Hnd|Hdup];
      [exact Hnd|].
    rewrite (Group_init_dup _ _ _ Hcs Hdup) in Hinit. discriminate.
  - apply Group_init_NoDup. exact Hcs.
Qed.

Lemma sum_Z_cons x xs : sum_Z (x :: xs) = x + sum_Z xs.
Proof.
  assert (∀ l a, fold_left Z.add l a = a + fold_left Z.add l 0) as Hacc.
  { induction l as [|y l IH]; intros a; cbn [fold_left]; [lia|].
    rewrite (IH (a + y)), (IH (0 + y)). lia. }
  unfold sum_Z. cbn [fold_left]. rewrite Hacc. lia.
Qed.

Lemma sum_Z_const (A : Type) (c : Z) (l : list A) :
  sum_Z (map (λ _, c) l) = Z.of_nat (length l) * c.
Proof.
  induction l as [|x l IH]; [reflexivity|].
  cbn [map length]. rewrite sum_Z_cons, IH. lia.
Qed.

Lemma py_max_const (A : Type) (c : Z) (l : list A) :
  l ≠ [] → py_max (map (λ _, c) l) = Ok c.
Proof.
  destruct l as [|x l]; [congruence|]. intros _. cbn. f_equal.
  induction l as [|y l IH]; [reflexivity|]. cbn. rewrite Z.max_id. exact IH.
Qed.

Section totals.
Variable DEFAULT_STRICT : bool.
Variable uuid4 : nat → N.

(** X8: a group just built with [n] equal collections reports size 0,
    maximum size [n * max_collection_size] and greatest capacity
    [max_collection_size]. *)
Theorem Group_new_fresh_totals (n mcs : Z) flag custom (h : Heap)
    g h' custom' :
  custom = None ∨ custom = Some [] →
  0 < n →
  Group_new DEFAULT_STRICT uuid4 (Some n) mcs flag custom h
    = (Ok g, h', custom') →
  Group_size g h' = Ok 0
  ∧ Group_max_size g h' = Ok (n * mcs)
  ∧ Group_max_collection_size g h' = Ok mcs.
Proof.
  intros Hc Hn Hnew.
  destruct (Group_new_plain_run DEFAULT_STRICT uuid4 n mcs flag custom h Hc)
    as [Hrun Hcs]; [lia|].
  rewrite Hrun in Hnew. injection Hnew as Hinit <- _.
  destruct (Group_init _ _) as [r h''] eqn:Hi. cbn in Hinit. subst r.
  apply Group_init_Ok in Hi as (_ & _ & Hmeta).
  unfold Group_size, Group_max_size, Group_max_collection_size,
    GroupMeta_size, GroupMeta_max_size, GroupMeta_max_collection_size.
  rewrite Hmeta, Hcs. cbn [mbind result_bind].
  rewrite !map_map. unfold Collection_size. cbn [max_size data length].
  change (Z.of_nat 0) with 0.
  rewrite !sum_Z_const, length_seq.
  rewrite py_max_const by (destruct (Z.to_nat n) eqn:E; [lia|discriminate]).
  rewrite Z2Nat.id, Z.mul_0_r by lia. repeat split.
Qed.
End totals.

Section extremes.
Variable Collection_status : Collection → Z.

(** X9: over live references, reading [status] or [max_collection_size]
    raises the [ValueError] of [max] on an empty sequence exactly when the
    group has no collection, while [size] and [max_size] of such a group
    are 0. *)
Theorem Group_extremes_empty (g : Group) (h : Heap) (cs : list Collection) :
  derefs (meta_collections (meta g)) h = Ok cs →
  (Group_status Collection_status g h
     = Raise (ValueError "max() arg is an empty sequence")
   ↔ meta_collections (meta g) = [])
  ∧ (Group_max_collection_size g h
       = Raise (ValueError "max() arg is an empty sequence")
     ↔ meta_collections (meta g) = [])
  ∧ (meta_collections (meta g) = [] →
     Group_size g h = Ok 0 ∧ Group_max_size g h = Ok 0).
Proof.
  intros Hcs. pose proof (derefs_length _ _ _ Hcs) as Hlen.
  unfold Group_status, Group_max_collection_size, Group_size, Group_max_size,
    GroupMeta_status, GroupMeta_max_collection_size, GroupMeta_size,
    GroupMeta_max_size.
  rewrite Hcs. cbn [mbind result_bind].
  destruct (meta_collections (meta g)) as [|r rs].
  - destruct cs; [|discriminate]. repeat split; reflexivity.
  - destruct cs as [|c cs]; [discriminate|].
    repeat split; try discriminate; intros; discriminate.
Qed.
End extremes.

(** ** The decorator *)

(** X10: whatever the decorated method, a call whose key is not a string
    raises [AttributeError] at [key.encode()], before the method body runs
    and before any collection is reached: so does a call with no argument
    at all (the key is [None]), a call whose first positional argument is
    not a string, and a call whose [key=] argument is not a string. *)
Theorem groupfn_key_must_be_str
    (fn : Group → list PyVal → Kwargs → result CollectionMethod)
    (g : Group) (h : Heap) :
  (∀ kwargs, kw_get kwargs "key" = None →
     groupfn fn g [] kwargs h = (Raise AttributeError, h))
  ∧ (∀ a args kwargs, kw_get kwargs "key" = None → (∀ s, a ≠ PyStr s) →
       groupfn fn g (a :: args) kwargs h = (Raise AttributeError, h))
  ∧ (∀ k args kwargs, kw_get kwargs "key" = Some k → (∀ s, k ≠ PyStr s) →
       groupfn fn g args kwargs h = (Raise AttributeError, h)).
Proof.
  split; [|split].
  - intros kwargs Hk. unfold groupfn. rewrite Hk. reflexivity.
  - intros a args kwargs Hk Ha. unfold groupfn. rewrite Hk. cbn.
    destruct a; try reflexivity. exfalso. exact (Ha s eq_refl).
  - intros k args kwargs Hk Hs. unfold groupfn. rewrite Hk. cbn.
    destruct k; try reflexivity. exfalso. exact (Hs s eq_refl).
Qed.

(** X11: the key may be passed by keyword: [get(key=k)] is [get(k)],
    [get(key=k, default=d)] is [get(k, d)] and [insert(key=k, value=v)] is
    [insert(k, v)], in result and in effect. *)
Theorem groupfn_key_by_keyword (g : Group) (k v dflt : PyVal) (h : Heap) :
  Group_get g [] [("key"%string, k)] h = Group_get g [k] [] h
  ∧ Group_get g [] [("key"%string, k); ("default"%string, dflt)] h
    = Group_get g [k; dflt] [] h
  ∧ Group_insert g [] [("key"%string, k); ("value"%string, v)] h
    = Group_insert g [k; v] [] h.
Proof.
  repeat split; vm_compute; reflexivity.
Qed.

(** X12: whatever the decorated method, its arguments and its outcome, a
    call through the decorator keeps the number of collections on the heap
    and leaves alone every collection but the one at the index of the
    key. *)
Theorem groupfn_touches_one_collection
    (fn : Group → list PyVal → Kwargs → result CollectionMethod)
    (g : Group) (args : list PyVal) (kwargs : Kwargs) (h h' : Heap)
    (r : result PyVal) :
  groupfn fn g args kwargs h = (r, h') →
  let key := default (match args with [] => PyNone | a :: _ => a end)
                     (kw_get kwargs "key") in
  length h' = length h
  ∧ ∀ ref, (∀ i, shard_index g key = Ok i →
                 collections g !! Z.to_nat i ≠ Some ref) →
           h' !! ref = h !! ref.
Proof.
  intros Hrun key. unfold groupfn, bind, lift in Hrun. fold key in Hrun.
  destruct (shard_index g key) as [i|e];
    [|injection Hrun as _ <-; split; reflexivity].
  destruct (collections g !! Z.to_nat i) as [ref0|] eqn:Href;
    [|injection Hrun as _ <-; split; reflexivity].
  assert (∀ c', length (<[ref0 := c']> h) = length h
                ∧ ∀ ref, (∀ i0, Ok i = Ok i0 →
                                collections g !! Z.to_nat i0 ≠ Some ref) →
                         <[ref0 := c']> h !! ref = h !! ref) as Hupd.
  { intros c'. split; [apply length_insert|]. intros ref Hother.
    apply list_lookup_insert_ne. intros ->.
    apply (Hother i eq_refl). exact Href. }
  destruct (fn g args kwargs) as [m|e];
    [|injection Hrun as _ <-; split; reflexivity].
  revert Hrun. unfold Collection_call, bind, lift, deref.
  destruct (h !! ref0) as [c|]; [|intros [= _ <-]; split; reflexivity].
  destruct (bind_params _ _ _) as [vs|e];
    [|intros [= _ <-]; split; reflexivity].
  destruct m, vs as [|v1 [|v2 [|v3 vs]]];
    try (intros [= _ <-]; first [apply Hupd | split; reflexivity]).
  - destruct (Collection_insert c v1 v2);
      intros [= _ <-]; first [apply Hupd | split; reflexivity].
  - destruct (Collection_popitem c) as [[kv c']|e];
      intros [= _ <-]; first [apply Hupd | split; reflexivity].
Qed.

(** X13: [get] only reads: whatever its arguments and its outcome, the heap
    after the call is the heap before it. *)
Theorem Group_get_read_only (g : Group) (args : list PyVal) (kwargs : Kwargs)
    (h : Heap) :
  (Group_get g args kwargs h).2 = h.
Proof.
  unfold Group_get, groupfn, bind, lift.
  destruct (shard_index g _) as [i|e]; [|reflexivity].
  destruct (collections g !! Z.to_nat i) as [ref|]; [|reflexivity].
  destruct (returns _ Cget g args kwargs) as [m|e] eqn:Hm; [|reflexivity].
  assert (m = Cget) as ->.
  { revert Hm. unfold returns. destruct (bind_params _ _ _); cbn;
      [intros [= <-]; reflexivity|discriminate]. }
  unfold Collection_call, bind, lift, deref.
  destruct (h !! ref) as [c|]; [|reflexivity].
  destruct (bind_params _ _ _) as [vs|e]; [|reflexivity].
  destruct vs as [|v1 [|v2 [|v3 vs]]]; reflexivity.
Qed.

(** X14: [get] of a key that the collection at its index does not hold
    answers the default passed, and [None] when none is passed. *)
Theorem Group_get_missing_key (g : Group) (k : PyVal) (h : Heap)
    (i : Z) (ref : Ref) (c : Collection) :
  shard_index g k = Ok i →
  collections g !! Z.to_nat i = Some ref →
  h !! ref = Some c →
  assoc_get (data c) k = None →
  Group_get g [k] [] h = (Ok PyNone, h)
  ∧ ∀ dflt, Group_get g [k; dflt] [] h = (Ok dflt, h).
Proof.
  intros Hi Href Hc Hk.
  unfold Group_get, groupfn, bind, lift. cbn. rewrite Hi, Href.
  unfold Collection_call, bind, lift, deref. cbn. rewrite Hc. cbn.
  unfold Collection_get. rewrite Hk. split; [reflexivity|].
  intros dflt. reflexivity.
Qed.

Lemma assoc_get_set_ne {V} (d : list (PyVal * V)) k k' v :
  k ≠ k' → assoc_get (assoc_set d k v) k' = assoc_get d k'.
Proof.
  intros Hne. induction d as [|[k0 v0] d IH]; cbn.
  - rewrite decide_False by exact Hne. reflexivity.
  - destruct (decide (k0 = k)) as [->|Hk0]; cbn.
    + rewrite !decide_False by exact Hne. reflexivity.
    + destruct (decide (k0 = k')); [reflexivity|exact IH].
Qed.

(** X15: a successful [insert(k, v)] changes what [get] answers for no
    other key, whether that key lives in the same collection or in
    another. *)
Theorem Group_insert_keeps_other_keys (g : Group) (k v r k' : PyVal)
    (h h' : Heap) :
  Group_insert g [k; v] [] h = (Ok r, h') →
  k' ≠ k →
  ∀ dflt, (Group_get g [k'; dflt] [] h').1 = (Group_get g [k'; dflt] [] h).1.
Proof.
  unfold Group_insert, Group_get, groupfn, bind, lift. cbn.
  destruct (shard_index g k) as [i|e]; [|discriminate].
  destruct (collections g !! Z.to_nat i) as [ref|]; [|discriminate].
  unfold Collection_call, bind, lift, deref. cbn.
  destruct (h !! ref) as [c|] eqn:Hc; [|discriminate].
  destruct (Collection_insert c k v) as [c'|e] eqn:Hins; [|discriminate].
  intros [= <- <-] Hne dflt.
  destruct (shard_index g k') as [i'|e]; [|reflexivity].
  destruct (collections g !! Z.to_nat i') as [ref'|]; [|reflexivity].
  destruct (decide (ref' = ref)) as [->|Href].
  - rewrite list_lookup_insert_eq by (eapply lookup_lt_Some; exact Hc).
    rewrite Hc. cbn. f_equal. revert Hins. unfold Collection_insert.
    destruct (_ && _); [discriminate|]. intros [= <-].
    unfold Collection_get. cbn.
    rewrite assoc_get_set_ne by congruence. reflexivity.
  - rewrite list_lookup_insert_ne by congruence.
    destruct (h !! ref'); reflexivity.
Qed.

(** ** The encoding of keys *)

Lemma str_encode_ascii (s : list Z) :
  Forall (λ c, 0 ≤ c < 128) s → str_encode s = Ok s.
Proof.
  induction 1 as [|c s Hc _ IH]; [reflexivity|]. cbn.
  unfold utf8_char. rewrite (proj2 (Z.ltb_lt c 128)) by lia. cbn.
  rewrite IH. reflexivity.
Qed.

(** X16: for a key of ASCII characters and a group with at least one
    collection, the index is the number that the characters spell in base
    256, first character most significant, modulo the number of
    collections; it lies within the sequence of collections. *)
Theorem shard_index_ascii (g : Group) (s : list Z) :
  Forall (λ c, 0 ≤ c < 128) s →
  collections g ≠ [] →
  shard_index g (PyStr s)
  = Ok (fold_left (λ acc c, acc * 256 + c) s 0
          `mod` Z.of_nat (length (collections g)))
  ∧ ∃ i ref, shard_index g (PyStr s) = Ok i
             ∧ collections g !! Z.to_nat i = Some ref.
Proof.
  intros Hs Hne.
  assert (shard_index g (PyStr s)
          = Ok (fold_left (λ acc c, acc * 256 + c) s 0
                  `mod` Z.of_nat (length (collections g)))) as Hi.
  { unfold shard_index, py_encode. rewrite (str_encode_ascii _ Hs). cbn.
    unfold py_mod.
    destruct (Z.eqb_spec (Z.of_nat (length (collections g))) 0) as [Hz|_];
      [|reflexivity].
    destruct (collections g); [congruence|discriminate]. }
  split; [exact Hi|].
  destruct (shard_index_lookup _ _ _ Hi) as (_ & ref & Href). eauto.
Qed.

Lemma int_from_bytes_snoc b x :
  int_from_bytes (b ++ [x]) = int_from_bytes b * 256 + x.
Proof. unfold int_from_bytes. rewrite fold_left_app. reflexivity. Qed.

(** X17: when the number of collections divides 256 (1, 2, 4, ..., 256),
    the index of a key is decided by the last byte of its encoding alone:
    it is that byte modulo the number of collections. *)
Theorem shard_index_last_byte (g : Group) (key : PyVal) (b : list Z) (x : Z) :
  py_encode key = Ok (b ++ [x]) →
  (Z.of_nat (length (collections g)) | 256) →
  shard_index g key = Ok (x `mod` Z.of_nat (length (collections g))).
Proof.
  intros Hk [q Hq]. unfold shard_index. rewrite Hk. cbn. unfold py_mod.
  destruct (Z.eqb_spec (Z.of_nat (length (collections g))) 0) as [Hz|Hnz].
  - rewrite Hz in Hq. lia.
  - rewrite int_from_bytes_snoc, Hq, Z.mul_assoc, Z.add_comm.
    rewrite Z_mod_plus_full. reflexivity.
Qed.

(** X18: whatever the decorated method and its arguments, a call through
    the decorator that raises leaves every collection as it was. *)
Theorem groupfn_raise_keeps_heap
    (fn : Group → list PyVal → Kwargs → result CollectionMethod)
    (g : Group) (args : list PyVal) (kwargs : Kwargs) (h h' : Heap)
    (e : exn) :
  groupfn fn g args kwargs h = (Raise e, h') → h' = h.
Proof.
  unfold groupfn, bind, lift.
  destruct (shard_index g _) as [i|e0]; [|intros [= _ <-]; reflexivity].
  destruct (collections g !! Z.to_nat i) as [ref|];
    [|intros [= _ <-]; reflexivity].
  destruct (fn g args kwargs) as [m|e0]; [|intros [= _ <-]; reflexivity].
  unfold Collection_call, bind, lift, deref.
  destruct (h !! ref) as [c|]; [|intros [= _ <-]; reflexivity].
  destruct (bind_params _ _ _) as [vs|e0]; [|intros [= _ <-]; reflexivity].
  destruct m, vs as [|v1 [|v2 [|v3 vs]]];
    try (intros [= _ <-]; reflexivity); try discriminate.
  - destruct (Collection_insert c v1 v2);
      [discriminate|intros [= _ <-]; reflexivity].
  - destruct (Collection_popitem c) as [[kv c']|e0];
      [discriminate|intros [= _ <-]; reflexivity].
Qed.

(** ** Sizes under insertion *)

Lemma derefs_lookup_fwd cols (h : Heap) cs j r :
  derefs cols h = Ok cs → cols !! j = Some r →
  ∃ c, h !! r = Some c ∧ cs !! j = Some c.
Proof.
  revert cs j. induction cols as [|r0 cols IH]; intros cs j; cbn.
  - intros _. rewrite lookup_nil. discriminate.
  - destruct (h !! r0) as [c0|] eqn:Hr0; cbn; [|discriminate].
    destruct (mapM _ cols) as [cs'|e] eqn:E; cbn; [|discriminate].
    intros [= <-]. destruct j as [|j]; cbn.
    + intros [= <-]. eauto.
    + intros Hj. apply (IH cs' j); [exact E|exact Hj].
Qed.

Lemma derefs_NoDup cols (h : Heap) cs :
  derefs cols h = Ok cs → NoDup (map uuid cs) → NoDup cols.
Proof.
  intros Hcs Hnd. apply NoDup_alt. intros i j r Hi Hj.
  destruct (derefs_lookup_fwd _ _ _ _ _ Hcs Hi) as (c & Hc & Hci).
  destruct (derefs_lookup_fwd _ _ _ _ _ Hcs Hj) as (c' & Hc' & Hcj).
  rewrite Hc in Hc'. injection Hc' as <-.
  eapply NoDup_lookup; [exact Hnd| |].
  - rewrite list_lookup_fmap, Hci. reflexivity.
  - rewrite list_lookup_fmap, Hcj. reflexivity.
Qed.

Lemma Group_init_Ok_NoDup cols h g h' :
  Group_init cols h = (Ok g, h') →
  ∃ cs, derefs cols h = Ok cs ∧ NoDup cols.
Proof.
  unfold Group_init, bind.
  destruct (derefs cols h) as [cs|e] eqn:Hcs; [|discriminate].
  destruct (decide _) as [|Heq]; [discriminate|]. intros _.
  exists cs. split; [reflexivity|]. apply (derefs_NoDup _ _ _ Hcs).
  apply dec_stable in Heq. apply size_list_to_set_NoDup.
  rewrite Heq, length_map. symmetry. apply (derefs_length _ _ _ Hcs).
Qed.

Lemma derefs_insert_other cols (h : Heap) ref c' :
  ref ∉ cols → derefs cols (<[ref := c']> h) = derefs cols h.
Proof.
  induction cols as [|r cols IH]; [reflexivity|].
  rewrite not_elem_of_cons. intros [Hne Hout]. unfold derefs in *. cbn.
  rewrite list_lookup_insert_ne by exact Hne. rewrite IH by exact Hout.
  reflexivity.
Qed.

Lemma derefs_insert cols (h : Heap) cs j ref c' :
  NoDup cols → cols !! j = Some ref → derefs cols h = Ok cs →
  derefs cols (<[ref := c']> h) = Ok (<[j := c']> cs).
Proof.
  revert cs j. induction cols as [|r cols IH]; intros cs j Hnd Hj.
  - rewrite lookup_nil in Hj. discriminate.
  - apply NoDup_cons in Hnd as [Hr Hnd]. unfold derefs in *. cbn.
    destruct (h !! r) as [c0|] eqn:Hr0; cbn; [|discriminate].
    destruct (mapM _ cols) as [cs'|e] eqn:E; cbn; [|discriminate].
    intros [= <-]. destruct j as [|j]; cbn in Hj.
    + injection Hj as ->.
      rewrite list_lookup_insert_eq by (eapply lookup_lt_Some; exact Hr0).
      cbn. pose proof (derefs_insert_other cols h ref c' Hr) as Ho.
      unfold derefs in Ho. rewrite Ho, E. reflexivity.
    + assert (r ≠ ref) as Hne
        by (intros ->; apply Hr; eapply list_elem_of_lookup_2; exact Hj).
      rewrite list_lookup_insert_ne by congruence. rewrite Hr0. cbn.
      rewrite (IH cs' j Hnd Hj eq_refl). reflexivity.
Qed.

Lemma sum_Z_insert (f : Collection → Z) cs j c c' :
  cs !! j = Some c →
  sum_Z (map f (<[j := c']> cs)) = sum_Z (map f cs) - f c + f c'.
Proof.
  revert j. induction cs as [|c0 cs IH]; intros j Hj.
  - rewrite lookup_nil in Hj. discriminate.
  - destruct j as [|j]; cbn in Hj.
    + injection Hj as ->.
      change (sum_Z (f c' :: map f cs) = sum_Z (f c :: map f cs) - f c + f c').
      rewrite !sum_Z_cons. lia.
    + change (sum_Z (f c0 :: map f (<[j := c']> cs))
              = sum_Z (f c0 :: map f cs) - f c + f c').
      rewrite !sum_Z_cons, (IH j Hj). lia.
Qed.

Lemma assoc_set_length {V} (d : list (PyVal * V)) k v :
  Z.of_nat (length (assoc_set d k v))
  = Z.of_nat (length d)
    + match assoc_get d k with Some _ => 0 | None => 1 end.
Proof.
  induction d as [|[k0 v0] d IH]; cbn [assoc_set assoc_get length];
    [reflexivity|].
  destruct (decide (k0 = k)); cbn [length]; lia.
Qed.

(** X19: on a group as its constructor builds it, a successful
    [insert(k, v)] raises the size of the group by one when the collection
    at the index of [k] did not hold the key and leaves it as it was when
    it did; the maximum size of the group does not change. *)
Theorem Group_insert_size (cols : list Ref) (g : Group) (k v r : PyVal)
    (h h' : Heap) :
  Group_init cols h = (Ok g, h) →
  Group_insert g [k; v] [] h = (Ok r, h') →
  ∃ (n : Z) (i : Z) (ref : Ref) (c : Collection),
    Group_size g h = Ok n
    ∧ shard_index g k = Ok i
    ∧ collections g !! Z.to_nat i = Some ref
    ∧ h !! ref = Some c
    ∧ Group_size g h'
      = Ok (n + match assoc_get (data c) k with Some _ => 0 | None => 1 end)
    ∧ Group_max_size g h' = Group_max_size g h.
Proof.
  intros Hinit.
  destruct (Group_init_Ok_NoDup _ _ _ _ Hinit) as (cs & Hcs & Hnd).
  destruct (Group_init_Ok _ _ _ _ Hinit) as (_ & Hcols & Hmeta).
  unfold Group_insert, groupfn, bind, lift. cbn.
  destruct (shard_index g k) as [i|e] eqn:Hi; [|discriminate].
  destruct (collections g !! Z.to_nat i) as [ref|] eqn:Href; [|discriminate].
  unfold Collection_call, bind, lift, deref. cbn.
  destruct (h !! ref) as [c|] eqn:Hc; [|discriminate].
  destruct (Collection_insert c k v) as [c'|e] eqn:Hins; [|discriminate].
  intros [= <- <-]. rewrite Hcols in Href.
  destruct (derefs_lookup_fwd _ _ _ _ _ Hcs Href) as (c0 & Hc0 & Hcj).
  rewrite Hc in Hc0. injection Hc0 as <-.
  pose proof (derefs_insert _ _ _ _ _ c' Hnd Href Hcs) as Hcs'.
  exists (sum_Z (map Collection_size cs)), i, ref, c.
  unfold Group_size, Group_max_size, GroupMeta_size, GroupMeta_max_size.
  rewrite Hmeta, Hcs, Hcs', Hcols. cbn [mbind result_bind].
  rewrite !(sum_Z_insert _ _ _ _ _ Hcj).
  revert Hins. unfold Collection_insert.
  destruct (_ && _); [discriminate|]. intros [= <-].
  unfold Collection_size. cbn [data max_size]. rewrite assoc_set_length.
  repeat split; try assumption; f_equal; lia.
Qed.

(** ** UTF-8 *)

Lemma lor_byte a b : 0 ≤ a < 256 → 0 ≤ b < 256 → 0 ≤ Z.lor a b < 256.
Proof.
  intros Ha Hb. split; [apply Z.lor_nonneg; lia|].
  destruct (Z.eq_dec (Z.lor a b) 0) as [->|Hnz]; [lia|].
  assert (0 ≤ Z.lor a b) as Hpos by (apply Z.lor_nonneg; lia).
  apply (Z.log2_lt_pow2 _ 8); [lia|].
  rewrite Z.log2_lor by lia.
  assert (∀ x, 0 ≤ x < 256 → Z.log2 x < 8) as Hlog.
  { intros x Hx. destruct (Z.eq_dec x 0) as [->|]; [reflexivity|].
    apply Z.log2_lt_pow2; lia. }
  pose proof (Hlog a Ha). pose proof (Hlog b Hb). lia.
Qed.

Lemma land_63 x : 0 ≤ Z.land x 63 < 64.
Proof.
  change 63 with (Z.ones 6). rewrite Z.land_ones by lia.
  apply Z.mod_pos_bound. reflexivity.
Qed.

Lemma shiftr_bound c k m :
  0 ≤ k → 0 ≤ c < m * 2 ^ k → 0 ≤ Z.shiftr c k < m.
Proof.
  intros Hk Hc. rewrite Z.shiftr_div_pow2 by exact Hk.
  assert (0 < 2 ^ k) by (apply Z.pow_pos_nonneg; lia). split.
  - apply Z.div_pos; lia.
  - apply Z.div_lt_upper_bound; lia.
Qed.

Lemma utf8_char_bytes c :
  0 ≤ c < 0x110000 → ¬ (0xD800 ≤ c ≤ 0xDFFF) →
  ∃ b, utf8_char c = Ok b
       ∧ Forall (λ x, 0 ≤ x < 256) b
       ∧ (1 ≤ length b ≤ 4)%nat.
Proof.
  intros Hc Hsur. unfold utf8_char.
  assert (∀ y, 0 ≤ Z.lor 128 (Z.land y 63) < 256) as Hcont.
  { intros y. pose proof (land_63 y). apply lor_byte; lia. }
  destruct (Z.ltb_spec c 128).
  { eexists. split; [reflexivity|]. split; [|cbn; lia].
    repeat constructor; lia. }
  destruct (Z.ltb_spec c 2048).
  { eexists. split; [reflexivity|]. split; [|cbn; lia].
    repeat constructor; try apply Hcont.
    - apply Z.lor_nonneg. pose proof (shiftr_bound c 6 32). lia.
    - apply lor_byte; [lia|]. pose proof (shiftr_bound c 6 32). lia. }
  destruct (Z.ltb_spec c 65536).
  { assert ((55296 <=? c) && (c <=? 57343) = false) as ->.
    { apply andb_false_iff.
      destruct (Z.leb_spec 55296 c); [|left; reflexivity].
      right. apply Z.leb_gt. lia. }
    eexists. split; [reflexivity|]. split; [|cbn; lia].
    repeat constructor; try apply Hcont.
    - apply Z.lor_nonneg. pose proof (shiftr_bound c 12 16). lia.
    - apply lor_byte; [lia|]. pose proof (shiftr_bound c 12 16). lia. }
  eexists. split; [reflexivity|]. split; [|cbn; lia].
  repeat constructor; try apply Hcont.
  - apply Z.lor_nonneg. pose proof (shiftr_bound c 18 8). lia.
  - apply lor_byte; [lia|]. pose proof (shiftr_bound c 18 8). lia.
Qed.

(** X20: a string of code points that are not surrogates encodes: the
    result is a sequence of bytes, each between 0 and 255, with at least
    one and at most four bytes for each character. *)
Theorem str_encode_bytes (s : list Z) :
  Forall (λ c, 0 ≤ c < 0x110000 ∧ ¬ (0xD800 ≤ c ≤ 0xDFFF)) s →
  ∃ b, str_encode s = Ok b
       ∧ Forall (λ x, 0 ≤ x < 256) b
       ∧ (length s ≤ length b ≤ 4 * length s)%nat.
Proof.
  induction 1 as [|c s [Hc Hsur] _ (bs & Hbs & Hall & Hlen)].
  - exists []. split; [reflexivity|]. split; [constructor|cbn; lia].
  - destruct (utf8_char_bytes c Hc Hsur) as (b & Hb & Hball & Hblen).
    exists (b ++ bs). cbn. rewrite Hb, Hbs. split; [reflexivity|].
    split; [apply Forall_app; split; assumption|].
    rewrite length_app. cbn. lia.
Qed.

Lemma str_encode_surrogate (s : list Z) c :
  c ∈ s → 0xD800 ≤ c ≤ 0xDFFF → str_encode s = Raise UnicodeEncodeError.
Proof.
  intros Hin Hc. induction s as [|c0 s IH]; [inversion Hin|]. cbn.
  destruct (utf8_char c0) as [b|e] eqn:Hc0; cbn.
  - apply elem_of_cons in Hin as [->|Hin].
    + exfalso. revert Hc0. unfold utf8_char.
      destruct (Z.ltb_spec c0 128); [lia|].
      destruct (Z.ltb_spec c0 2048); [lia|].
      destruct (Z.ltb_spec c0 65536); [|lia].
      destruct (Z.leb_spec 55296 c0); [|lia].
      destruct (Z.leb_spec c0 57343); [|lia]. discriminate.
    + rewrite (IH Hin). reflexivity.
  - f_equal. revert Hc0. unfold utf8_char.
    destruct (c0 <? 128), (c0 <? 2048), (c0 <? 65536),
      ((55296 <=? c0) && (c0 <=? 57343));
      try discriminate; intros [= <-]; reflexivity.
Qed.

(** X21: a key that contains a surrogate code point cannot be encoded:
    whatever the decorated method, the call raises [UnicodeEncodeError] and
    reaches no collection. *)
Theorem groupfn_surrogate_key
    (fn : Group → list PyVal → Kwargs → result CollectionMethod)
    (g : Group) (s : list Z) (c : Z) (args : list PyVal) (h : Heap) :
  c ∈ s → 0xD800 ≤ c ≤ 0xDFFF →
  groupfn fn g (PyStr s :: args) [] h = (Raise UnicodeEncodeError, h).
Proof.
  intros Hin Hc. unfold groupfn, bind, lift, shard_index. cbn.
  rewrite (str_encode_surrogate s c Hin Hc). reflexivity.
Qed.

(** ** Instances of the further properties *)

Lemma Group_new_equal_shards_witness :
  Group_new false N.of_nat (Some 2) 7 false None [] = (Ok group_2, heap_2, None).
Proof.
  apply (Group_new_equal_shards false N.of_nat 2 7 false None []).
  - left. reflexivity.
  - lia.
  - apply (bool_decide_unpack _). vm_compute. exact I.
Defined.

Lemma Group_new_custom_shards_witness :
  ∃ d' cs,
    Some layout_0_2_filled = Some d'
    ∧ collections group_3 = seq 0 (length d')
    ∧ heap_3 = [] ++ cs
    ∧ derefs (collections group_3) heap_3 = Ok cs
    ∧ map max_size cs = map snd d'
    ∧ Forall (λ c, strict c = false ∧ data c = []) cs.
Proof.
  apply (Group_new_custom_shards false N.of_nat None 7 false layout_0_2 []
           group_3 heap_3 (Some layout_0_2_filled)).
  - discriminate.
  - vm_compute. reflexivity.
Defined.

Lemma Group_new_conflict_keeps_effects_witness :
  Group_new false uuid_clash None 7 false (Some layout_0_2) []
  = (Raise (KeyError "Collections must not have conflicting UUID values"),
     [] ++ built false uuid_clash 0 (map snd layout_0_2_filled),
     Some layout_0_2_filled).
Proof.
  apply (Group_new_conflict_keeps_effects false uuid_clash None 7 false
           layout_0_2 [] 2).
  - discriminate.
  - reflexivity.
  - right. apply Z.le_refl.
  - apply (bool_decide_unpack _). vm_compute. exact I.
Defined.

Lemma Group_new_non_int_key_witness :
  Group_new false N.of_nat None 7 false (Some [(PyStr (str "a"), 3)]) []
  = (Raise (KeyError "Custom collection keys must be integers"), [],
     Some [(PyStr (str "a"), 3)]).
Proof.
  apply (Group_new_non_int_key false N.of_nat None 7 false
           [(PyStr (str "a"), 3)] [] (PyStr (str "a"))).
  - apply (bool_decide_unpack _). vm_compute. exact I.
  - reflexivity.
Defined.

Lemma Group_new_size_below_highest_witness :
  Group_new false N.of_nat (Some 3) 7 false (Some layout_0_5) []
  = (Raise (KeyError "Size must be greater than highest key"), [],
     Some layout_0_5).
Proof.
  apply (Group_new_size_below_highest false N.of_nat 3 7 false layout_0_5 [] 5).
  - reflexivity.
  - lia.
  - lia.
Defined.

Lemma Group_new_custom_count_witness :
  Z.of_nat (length (collections group_3))
  = Z.max (if not_size (Some 2) then 2 else default 0 (Some 2)) (2 + 1)
  ∧ (Some 2 = Some 2 → 2 ≠ 0 →
     Z.of_nat (length (collections group_3)) = 2 + 1).
Proof.
  apply (Group_new_custom_count false N.of_nat (Some 2) 7 false layout_0_2 []
           group_3 heap_3 (Some layout_0_2_filled) 2).
  - apply (bool_decide_unpack _). vm_compute. exact I.
  - intros z Hz. cbn in Hz.
    repeat (apply elem_of_cons in Hz as [Hz|Hz]; [injection Hz as ->; lia|]).
    inversion Hz.
  - reflexivity.
  - vm_compute. reflexivity.
Defined.

Lemma Group_init_iff_distinct_witness :
  Group_init [0%nat; 1%nat] heap_2
    = (Ok (mkGroup [0%nat; 1%nat] (mkGroupMeta [0%nat; 1%nat])), heap_2)
  ↔ NoDup (map uuid heap_2).
Proof.
  apply (Group_init_iff_distinct [0%nat; 1%nat] heap_2 heap_2). reflexivity.
Defined.

Lemma Group_new_fresh_totals_witness :
  Group_size group_2 heap_2 = Ok 0
  ∧ Group_max_size group_2 heap_2 = Ok (2 * 7)
  ∧ Group_max_collection_size group_2 heap_2 = Ok 7.
Proof.
  apply (Group_new_fresh_totals false N.of_nat 2 7 false None [] group_2
           heap_2 None).
  - left. reflexivity.
  - lia.
  - vm_compute. reflexivity.
Defined.

Lemma Group_extremes_empty_witness :
  (Group_status Collection_size (mkGroup [] (mkGroupMeta [])) []
     = Raise (ValueError "max() arg is an empty sequence")
   ↔ meta_collections (meta (mkGroup [] (mkGroupMeta []))) = [])
  ∧ (Group_max_collection_size (mkGroup [] (mkGroupMeta [])) []
       = Raise (ValueError "max() arg is an empty sequence")
     ↔ meta_collections (meta (mkGroup [] (mkGroupMeta []))) = [])
  ∧ (meta_collections (meta (mkGroup [] (mkGroupMeta []))) = [] →
     Group_size (mkGroup [] (mkGroupMeta [])) [] = Ok 0
     ∧ Group_max_size (mkGroup [] (mkGroupMeta [])) [] = Ok 0).
Proof.
  apply (Group_extremes_empty Collection_size (mkGroup [] (mkGroupMeta []))
           [] []).
  reflexivity.
Defined.

Lemma groupfn_key_must_be_str_witness :
  groupfn (returns [] Cpopitem) group_2 [PyInt 5] [] heap_2
  = (Raise AttributeError, heap_2).
Proof.
  destruct (groupfn_key_must_be_str (returns [] Cpopitem) group_2 heap_2)
    as (_ & Hpos & _).
  apply Hpos.
  - reflexivity.
  - intros s. discriminate.
Defined.

Lemma groupfn_touches_one_collection_witness :
  length heap_2_used = length heap_2
  ∧ ∀ ref, (∀ i, shard_index group_2 (PyStr (str "ab")) = Ok i →
                 collections group_2 !! Z.to_nat i ≠ Some ref) →
           heap_2_used !! ref = heap_2 !! ref.
Proof.
  apply (groupfn_touches_one_collection
           (returns [("key"%string, None); ("value"%string, None)] Cinsert)
           group_2 [PyStr (str "ab"); PyInt 5] [] heap_2 heap_2_used
           (Ok PyNone)).
  vm_compute. reflexivity.
Defined.

Lemma Group_get_missing_key_witness :
  Group_get group_2 [PyStr (str "ab")] [] heap_2 = (Ok PyNone, heap_2)
  ∧ ∀ dflt,
      Group_get group_2 [PyStr (str "ab"); dflt] [] heap_2 = (Ok dflt, heap_2).
Proof.
  apply (Group_get_missing_key group_2 (PyStr (str "ab")) heap_2 0 0%nat
           (mkCollection 0 7 false [])).
  - vm_compute. reflexivity.
  - reflexivity.
  - reflexivity.
  - reflexivity.
Defined.

Lemma Group_insert_keeps_other_keys_witness :
  (Group_get group_2 [PyStr (str "cd"); PyInt 0] [] heap_2_used).1
  = (Group_get group_2 [PyStr (str "cd"); PyInt 0] [] heap_2).1.
Proof.
  refine (Group_insert_keeps_other_keys group_2 (PyStr (str "ab")) (PyInt 5)
            PyNone (PyStr (str "cd")) heap_2 heap_2_used _ _ (PyInt 0)).
  - vm_compute. reflexivity.
  - apply (bool_decide_unpack _). vm_compute. exact I.
Defined.

Lemma shard_index_ascii_witness :
  shard_index group_2 (PyStr (str "ab"))
  = Ok (fold_left (λ acc c, acc * 256 + c) (str "ab") 0
          `mod` Z.of_nat (length (collections group_2)))
  ∧ ∃ i ref, shard_index group_2 (PyStr (str "ab")) = Ok i
             ∧ collections group_2 !! Z.to_nat i = Some ref.
Proof.
  apply (shard_index_ascii group_2 (str "ab")).
  - apply (bool_decide_unpack _). vm_compute. exact I.
  - discriminate.
Defined.

Lemma shard_index_last_byte_witness :
  shard_index group_2 (PyStr (str "ab"))
  = Ok (98 `mod` Z.of_nat (length (collections group_2))).
Proof.
  apply (shard_index_last_byte group_2 (PyStr (str "ab")) [97] 98).
  - reflexivity.
  - exists 128. reflexivity.
Defined.

Lemma groupfn_raise_keeps_heap_witness : heap_full = heap_full.
Proof.
  apply (groupfn_raise_keeps_heap
           (returns [("key"%string, None); ("value"%string, None)] Cinsert)
           group_1 [PyStr (str "a"); PyInt 1] [] heap_full heap_full
           CollectionCapacityError).
  vm_compute. reflexivity.
Defined.

Lemma Group_insert_size_witness :
  ∃ (n : Z) (i : Z) (ref : Ref) (c : Collection),
    Group_size group_2 heap_2 = Ok n
    ∧ shard_index group_2 (PyStr (str "ab")) = Ok i
    ∧ collections group_2 !! Z.to_nat i = Some ref
    ∧ heap_2 !! ref = Some c
    ∧ Group_size group_2 heap_2_used
      = Ok (n + match assoc_get (data c) (PyStr (str "ab")) with
                | Some _ => 0
                | None => 1
                end)
    ∧ Group_max_size group_2 heap_2_used = Group_max_size group_2 heap_2.
Proof.
  apply (Group_insert_size [0%nat; 1%nat] group_2 (PyStr (str "ab")) (PyInt 5)
           PyNone heap_2 heap_2_used).
  - vm_compute. reflexivity.
  - vm_compute. reflexivity.
Defined.

Lemma str_encode_bytes_witness :
  ∃ b, str_encode sample_str = Ok b
       ∧ Forall (λ x, 0 ≤ x < 256) b
       ∧ (length sample_str ≤ length b ≤ 4 * length sample_str)%nat.
Proof.
  apply (str_encode_bytes sample_str).
  apply (bool_decide_unpack _). vm_compute. exact I.
Defined.

Lemma groupfn_surrogate_key_witness :
  groupfn (returns [("key"%string, None); ("default"%string, Some PyNone)]
                   Cget)
          group_2 [PyStr [97; 55296]] [] heap_2
  = (Raise UnicodeEncodeError, heap_2).
Proof.
  apply (groupfn_surrogate_key _ group_2 [97; 55296] 55296 [] heap_2).
  - apply (bool_decide_unpack _). vm_compute. exact I.
  - lia.
Defined.
